(** * The command registry, capability set and dispatcher of cmds/reg.cpp

    A shallow embedding of [src/cmds/reg.cpp]: the two hash tables
    [command_funcs] and [capabilities], the global [poisoned_reason], and the
    functions [compare_def], [print_command_list_for_help],
    [w_register_command], [lookup], [preprocess_command], [dispatch_command],
    [w_capability_register] and [w_capability_supported], followed by the
    properties of the registry and of the dispatch pipeline. *)

From Stdlib Require Import ZArith Ascii String List Floats Sorted Permutation Lia.
From stdpp Require Import gmap strings list fin_maps sorting.

Local Open Scope Z_scope.

(** ** C strings *)

(** A [char*] is modelled by the [string] of the bytes that precede its
    terminating NUL. *)
Module CString.

(** The value of a [char] read as [unsigned char]. *)
Definition byte (c : ascii) : Z := Z.of_N (N_of_ascii c).

Definition NUL : ascii := Ascii.zero.

(** [strcmp]: the difference of the first two bytes that differ, read as
    [unsigned char]; a string that ends first meets the other one's byte with
    its terminator, and comparison stops at a terminator common to both. *)
Fixpoint strcmp (a b : string) : Z :=
  match a, b with
  | EmptyString, EmptyString => 0
  | EmptyString, String y _ => 0 - byte y
  | String x _, EmptyString => byte x - 0
  | String x a', String y b' =>
      if decide (x = y)
      then (if decide (x = NUL) then 0 else strcmp a' b')
      else byte x - byte y
  end.

(** The first [n] bytes of [s]. *)
Fixpoint truncate (n : nat) (s : string) : string :=
  match n, s with
  | O, _ => EmptyString
  | S _, EmptyString => EmptyString
  | S n', String c s' => String c (truncate n' s')
  end.

(** [snprintf(buf, size, fmt, ...)] where [out] is the expansion of the
    format: at most [size - 1] bytes are stored before the terminator. *)
Definition snprintf (size : nat) (out : string) : string :=
  truncate (size - 1) out.

(** Whether no byte of [s] is the terminator, as in every string that a
    [char*] denotes. *)
Fixpoint nul_free (s : string) : bool :=
  match s with
  | EmptyString => true
  | String c s' => negb (bool_decide (c = NUL)) && nul_free s'
  end.

(** [n] copies of the byte [c]. *)
Fixpoint repeat_char (c : ascii) (n : nat) : string :=
  match n with
  | O => EmptyString
  | S n' => String c (repeat_char c n')
  end.

End CString.

Import CString.

(** ** JSON values (jansson) *)

#[local] Unset Elimination Schemes.
Inductive json_t : Type :=
| JNull
| JTrue
| JFalse
| JInteger (z : Z)
| JReal (d : float)
| JString (s : string)
| JArray (elems : list json_t)
| JObject (props : list (string * json_t)).
#[local] Set Elimination Schemes.

(** Equality of JSON values is decidable (doubles are compared bit for bit). *)
Definition float_eq_dec (x y : float) : {x = y} + {x ≠ y}.
Proof.
  destruct (PrimFloat.Leibniz.eqb x y) eqn:H.
  - left. by apply FloatAxioms.Leibniz.eqb_spec.
  - right. intros Heq. apply FloatAxioms.Leibniz.eqb_spec in Heq. congruence.
Defined.

Fixpoint json_eq_dec (x y : json_t) {struct x} : {x = y} + {x ≠ y}.
Proof.
  destruct x, y; try (right; discriminate); try (left; reflexivity).
  - destruct (Z.eq_dec z z0) as [H|H]; [left; congruence | right; congruence].
  - destruct (float_eq_dec d d0) as [H|H]; [left; congruence | right; congruence].
  - destruct (string_dec s s0) as [H|H]; [left; congruence | right; congruence].
  - destruct (List.list_eq_dec json_eq_dec elems elems0) as [H|H];
      [left; congruence | right; congruence].
  - refine (match List.list_eq_dec (λ p q : string * json_t, _) props props0 with
            | left e => left _ | right n => right _ end).
    + destruct p as [s1 j1], q as [s2 j2].
      destruct (string_dec s1 s2) as [Hs|Hs]; [|right; congruence].
      destruct (json_eq_dec j1 j2) as [H|H]; [left; congruence | right; congruence].
    + congruence.
    + congruence.
Defined.

#[global] Instance json_eq_decision : EqDecision json_t := json_eq_dec.

(** [json_array_size]: 0 for anything that is not an array. *)
Definition json_array_size (j : json_t) : nat :=
  match j with
  | JArray elems => length elems
  | _ => O
  end.

(** [json_array_get]: NULL ([None]) for a non-array or an index out of range. *)
Definition json_array_get (j : json_t) (i : nat) : option json_t :=
  match j with
  | JArray elems => elems !! i
  | _ => None
  end.

(** [json_string_value]: NULL ([None]) unless the value is a string. *)
Definition json_string_value (j : option json_t) : option string :=
  match j with
  | Some (JString s) => Some s
  | _ => None
  end.

(** [json_to_w_string]: the [w_string_t] of a JSON string; only called once
    [json_string_value] has returned non-NULL. *)
Definition json_to_w_string (j : option json_t) : string :=
  default EmptyString (json_string_value j).

(** ** Performance samples, clients and command definitions *)

(** [w_perf_t]: the part of a sample this file sets. *)
Record w_perf_t : Type := mk_perf {
  description : string;
  wall_time_thresh : option float;
  meta_data : list (string * json_t)
}.

(** What a session has been sent.  [send_error_response(client, fmt, ...)]
    queues an [ErrorResponse] carrying the expansion of the format; [None] is
    the expansion of ["%s"] applied to a NULL pointer.  Handlers queue
    [Response]s. *)
Inductive response : Type :=
| ErrorResponse (msg : option string)
| Response (payload : json_t).

(** [struct watchman_client]: the fields this file reads or writes, and the
    responses queued on the session. *)
Record watchman_client : Type := mk_client {
  client_is_owner : bool;
  current_command : option json_t;
  perf_sample : option w_perf_t;
  responses : list response
}.

Definition watchman_command_func : Type := watchman_client -> json_t -> watchman_client.

(** A validator receives the arguments and may set [*errmsg]. *)
Definition watchman_cli_cmd_validate_func : Type := json_t -> option string.

(** [struct watchman_command_handler_def].  [flags] is an [int]; it is only
    ever combined with another [int] by bitwise and, which [Z.land] computes on
    the two's complement reading. *)
Record watchman_command_handler_def : Type := mk_def {
  name : string;
  func : watchman_command_func;
  flags : Z;
  cli_validate : option watchman_cli_cmd_validate_func
}.

(** Modelled from the spec: the flag bits are declared in watchman.h, which is
    not part of this file; section 6 of the spec names two mode bits (a full
    daemon mode and a CLI mode) and two independent policy bits.  They are taken
    to be four distinct bits; no statement below depends on which. *)
Definition CMD_DAEMON : Z := 1.
Definition CMD_CLIENT : Z := 2.
Definition CMD_POISON_IMMUNE : Z := 4.
Definition CMD_ALLOW_ANY_USER : Z := 8.

(** [enum w_pdu_type], declared in watchman.h: the encodings a caller selects. *)
Inductive w_pdu_type : Type := need_data | is_json_compact | is_json_pretty | is_bser.

(** ** Hash tables *)

(** A [w_ht_t*] keyed by strings: NULL until the table is created. *)
Abbreviation w_ht_t V := (option (gmap string V)).

(** Modelled from the spec: [w_ht_set] lives in the hash table module, not in
    this file.  Section 4.1: registration "inserts/overwrites the entry keyed
    by def.name"; section 4.2: capability registration is a "set-insert,
    idempotent". *)
Definition w_ht_set {V} (ht : gmap string V) (key : string) (val : V) : gmap string V :=
  <[key := val]> ht.

(** [w_ht_get]: the value stored under [key], NULL or 0 ([None]) when there is
    none; a table that was never created holds no entry. *)
Definition w_ht_get {V} (ht : w_ht_t V) (key : string) : option V :=
  ht ≫= (λ m, m !! key).

(** [w_ht_size]. *)
Definition w_ht_size {V} (ht : w_ht_t V) : nat :=
  from_option size O ht.

(** [w_ht_first] / [w_ht_next]: the values met by an iteration over the table,
    in the table's own order. *)
Definition w_ht_values {V} (ht : w_ht_t V) : list V :=
  from_option (λ m, (map_to_list m).*2) [] ht.

(** ** Program state *)

Inductive log_record : Type :=
| LogDbg (msg : string)
| PerfLog (sample : w_perf_t).

(** The memory [reg.cpp] works on: its three globals, the client and the
    reference count of the argument array a call was given, and two
    observation traces (handler invocations, log output). *)
Record state : Type := mk_state {
  command_funcs : w_ht_t watchman_command_handler_def;
  capabilities : w_ht_t bool;
  poisoned_reason : option string;
  client : watchman_client;
  args_refcount : Z;
  calls : list (string * json_t);
  log : list log_record
}.

Definition set_command_funcs (st : state) (v : w_ht_t watchman_command_handler_def) : state :=
  mk_state v (capabilities st) (poisoned_reason st) (client st) (args_refcount st) (calls st) (log st).
Definition set_capabilities (st : state) (v : w_ht_t bool) : state :=
  mk_state (command_funcs st) v (poisoned_reason st) (client st) (args_refcount st) (calls st) (log st).
Definition set_client (st : state) (c : watchman_client) : state :=
  mk_state (command_funcs st) (capabilities st) (poisoned_reason st) c (args_refcount st) (calls st) (log st).
Definition set_args_refcount (st : state) (n : Z) : state :=
  mk_state (command_funcs st) (capabilities st) (poisoned_reason st) (client st) n (calls st) (log st).
Definition add_call (st : state) (c : string * json_t) : state :=
  mk_state (command_funcs st) (capabilities st) (poisoned_reason st) (client st) (args_refcount st)
           (calls st ++ [c]) (log st).
Definition add_log (st : state) (r : log_record) : state :=
  mk_state (command_funcs st) (capabilities st) (poisoned_reason st) (client st) (args_refcount st)
           (calls st) (log st ++ [r]).

Definition set_current_command (c : watchman_client) (v : option json_t) : watchman_client :=
  mk_client (client_is_owner c) v (perf_sample c) (responses c).
Definition set_perf_sample (c : watchman_client) (v : option w_perf_t) : watchman_client :=
  mk_client (client_is_owner c) (current_command c) v (responses c).

(** The state before anything is registered: both tables NULL, not poisoned,
    the argument array held by its one owner. *)
Definition initial_state (c : watchman_client) : state :=
  mk_state None None None c 1 [] [].

(** ** Registration and capabilities *)

(** [w_capability_register]. *)
Definition w_capability_register (cap : string) (st : state) : state :=
  let caps := default ∅ (capabilities st) in
  set_capabilities st (Some (w_ht_set caps cap true)).

(** [w_capability_supported]. *)
Definition w_capability_supported (cap : string) (st : state) : bool :=
  default false (w_ht_get (capabilities st) cap).

(** [w_register_command]: [capname] is a buffer of 128 bytes. *)
Definition w_register_command (defs : watchman_command_handler_def) (st : state) : state :=
  let funcs := default ∅ (command_funcs st) in
  let st := set_command_funcs st (Some (w_ht_set funcs (name defs) defs)) in
  let capname := snprintf 128 ("cmd-" +:+ name defs) in
  w_capability_register capname st.

(** [w_ht_first] / [w_ht_next]: the keys met by an iteration over the table,
    in the table's own order. *)
Definition w_ht_keys {V} (ht : w_ht_t V) : list string :=
  from_option (λ m, (map_to_list m).*1) [] ht.

(** [json_array_of_size]: an empty array (the size is only a capacity). *)
Definition json_array_of_size (n : nat) : json_t := JArray [].

(** [json_array_append]: the value added at the end; nothing is done to a value
    that is not an array. *)
Definition json_array_append (arr : json_t) (v : json_t) : json_t :=
  match arr with
  | JArray elems => JArray (elems ++ [v])
  | _ => arr
  end.

(** [w_string_to_json]. *)
Definition w_string_to_json (s : string) : json_t := JString s.

(** [w_capability_get_list].  The loop is a [do ... while] that is entered
    without a test of what [w_ht_first] returned: when the table holds no
    capability its body reads an iterator that was never set, and the function
    has no result ([None]). *)
Definition w_capability_get_list (st : state) : option json_t :=
  let arr := json_array_of_size (w_ht_size (capabilities st)) in
  match w_ht_keys (capabilities st) with
  | [] => None
  | keys => Some (foldl (λ arr key, json_array_append arr (w_string_to_json key)) arr keys)
  end.

(** ** Lookup *)

(** [lookup]: the definition found (NULL is [None]) and the value of [*errmsg]
    on return, [errmsg] being its value on entry. *)
Definition lookup (st : state) (args : json_t) (errmsg : option string) (mode : Z)
  : option watchman_command_handler_def * option string :=
  if decide (json_array_size args = O) then
    (None, Some "invalid command (expected an array with some elements!)")
  else
    let jstr := json_array_get args 0 in
    match json_string_value jstr with
    | None => (None, Some "invalid command: expected element 0 to be the command name")
    | Some cmd_name =>
        let cmd := json_to_w_string jstr in
        match w_ht_get (command_funcs st) cmd with
        | Some def =>
            if negb (mode =? 0) && (Z.land (flags def) mode =? 0) then
              (None, Some ("command " +:+ cmd_name +:+ " not available in this mode"))
            else (Some def, errmsg)
        | None =>
            (None, if negb (mode =? 0) then Some ("unknown command " +:+ cmd_name) else errmsg)
        end
    end.

(** ** The command list of the help text *)

(** [compare_def]. *)
Definition compare_def (a b : watchman_command_handler_def) : Z :=
  strcmp (name a) (name b).

(** The order that a comparison function of [qsort] denotes: [a] may come
    before [b] when [compar a b] is not positive. *)
Definition compar_le {A} (compar : A -> A -> Z) : relation A :=
  λ a b, compar a b <= 0.

#[global] Instance compar_le_dec {A} (compar : A -> A -> Z) : RelDecision (compar_le compar).
Proof. intros a b. unfold compar_le. apply _. Defined.

(** [qsort] (libc): the array reordered so that [compar] is never positive
    from an element to a later one.  A merge sort stands for it; the order in
    which libc leaves elements that compare equal is not specified, and nothing
    below depends on it. *)
Definition qsort {A} (compar : A -> A -> Z) (base : list A) : list A :=
  merge_sort (compar_le compar) base.

Definition newline : string := String (ascii_of_nat 10) EmptyString.

(** The array [defs] of [print_command_list_for_help] when it is printed. *)
Definition sorted_command_list (st : state) : list watchman_command_handler_def :=
  let n := w_ht_size (command_funcs st) in
  let defs := w_ht_values (command_funcs st) in
  if decide (0 < n)%nat then qsort compare_def defs else defs.

(** [print_command_list_for_help]: the text written to [where]. *)
Definition print_command_list_for_help (st : state) : string :=
  let defs := sorted_command_list st in
  (newline +:+ newline +:+ "Available commands:" +:+ newline +:+ newline) +:+
  foldr (λ d out, ("      " +:+ name d +:+ newline) +:+ out) EmptyString defs.

(** ** Preprocessing and dispatch *)

(** How [preprocess_command] ends: it returns, or it calls [exit(code)] after
    writing [out] to the standard output in the encoding [pdu]. *)
Inductive preprocess_result : Type :=
| Returned
| Exited (code : Z) (pdu : w_pdu_type) (out : json_t).

Section Daemon.

(** From the build configuration. *)
Variable PACKAGE_VERSION : string.
(** [cfg_get_double(nullptr, name, default)], from the configuration module. *)
Variable cfg_get_double : string -> float -> float.
(** [w_perf_t::finish]: whether the sample ran past its threshold; decided by
    the clock. *)
Variable sample_finish : w_perf_t -> bool.

(** [preprocess_command]. *)
Definition preprocess_command (st : state) (args : json_t) (output_pdu : w_pdu_type)
  : preprocess_result :=
  let '(def, errmsg) := lookup st args None 0 in
  match def, errmsg with
  | None, None =>
      (* Nothing known about it, pass the command on anyway *)
      Returned
  | _, _ =>
      let errmsg :=
        match errmsg, def with
        | None, Some d =>
            match cli_validate d with
            | Some validate => validate args
            | None => errmsg
            end
        | _, _ => errmsg
        end in
      match errmsg with
      | Some m =>
          let err := JObject [("error", JString m);
                              ("version", JString PACKAGE_VERSION);
                              ("cli_validated", JTrue)] in
          Exited 1 output_pdu err
      | None => Returned
      end
  end.

(** [send_error_response(client, fmt, ...)], [msg] being the expansion. *)
Definition send_error_response (st : state) (msg : option string) : state :=
  let c := client st in
  set_client st (mk_client (client_is_owner c) (current_command c) (perf_sample c)
                           (responses c ++ [ErrorResponse msg])).

(** [json_incref(p)] and [json_decref(p)].  A pointer is modelled by the value
    it points to, and the state follows one counter, that of the argument array
    [args] of the call.  The counter changes when [p] points to that array;
    when [p] is NULL, or points to another value, nothing that the state follows
    changes. *)
Definition json_incref (st : state) (args : json_t) (p : option json_t) : state :=
  match p with
  | Some j => if decide (j = args) then set_args_refcount st (args_refcount st + 1) else st
  | None => st
  end.
Definition json_decref (st : state) (args : json_t) (p : option json_t) : state :=
  match p with
  | Some j => if decide (j = args) then set_args_refcount st (args_refcount st - 1) else st
  | None => st
  end.

(** [w_perf_t::add_meta]. *)
Definition add_meta (sample : w_perf_t) (key : string) (val : json_t) : w_perf_t :=
  mk_perf (description sample) (wall_time_thresh sample) (meta_data sample ++ [(key, val)]).

(** The code under the label [done] of [dispatch_command]; [args] is the
    argument array of the call. *)
Definition dispatch_done (st : state) (args : json_t) (result : bool) : bool * state :=
  let st := json_decref st args (current_command (client st)) in
  let st := set_client st (set_current_command (client st) None) in
  let st := set_client st (set_perf_sample (client st) None) in
  (result, st).

(** The scope of the performance sample in [dispatch_command], where the
    handler runs; [sample_name] is a buffer of 128 bytes.  The handler is given
    the client with [perf_sample] pointing to the sample, and what it writes to
    the sample it writes through that pointer: the field [perf_sample] of the
    client it returns holds the sample as the handler left it, and that is the
    sample that [finish], [add_meta] and [log] then work on.  (A handler that
    sets the pointer to NULL is taken to have left the sample as it was made.) *)
Definition dispatch_execute (st : state) (def : watchman_command_handler_def) (args : json_t)
  : state :=
  let st := add_log st (LogDbg ("dispatch_command: " +:+ name def +:+ newline)) in
  let sample_name := snprintf 128 ("dispatch_command:" +:+ name def) in
  let sample :=
    mk_perf sample_name
            (Some (cfg_get_double "slow_command_log_threshold_seconds" 1%float)) [] in
  let st := set_client st (set_perf_sample (client st) (Some sample)) in
  let st := add_call st (name def, args) in
  let st := set_client st (func def (client st) args) in
  let sample := default sample (perf_sample (client st)) in
  if sample_finish sample then
    let st := json_incref st args (Some args) in
    add_log st (PerfLog (add_meta sample "args" args))
  else
    add_log st (LogDbg ("dispatch_command: " +:+ name def +:+ " (completed)" +:+ newline)).

(** [dispatch_command]. *)
Definition dispatch_command (st : state) (args : json_t) (mode : Z) : bool * state :=
  let st := set_client st (set_current_command (client st) (Some args)) in
  let st := json_incref st args (current_command (client st)) in
  let '(def, errmsg) := lookup st args None mode in
  match def with
  | None => dispatch_done (send_error_response st errmsg) args false
  | Some def =>
      if bool_decide (is_Some (poisoned_reason st))
         && (Z.land (flags def) CMD_POISON_IMMUNE =? 0) then
        dispatch_done (send_error_response st (poisoned_reason st)) args false
      else if negb (client_is_owner (client st))
              && (Z.land (flags def) CMD_ALLOW_ANY_USER =? 0) then
        (false,
         send_error_response st
           (Some ("you must be the process owner to execute '" +:+ name def +:+ "'")))
      else
        let st := dispatch_execute st def args in
        dispatch_done st args true
  end.

End Daemon.

(** ** Startup and the rejections of the specification *)

(** What the startup code does to the registry before service begins: it
    registers commands, and capabilities that belong to no command. *)
Inductive startup_op : Type :=
| RegisterCommand (def : watchman_command_handler_def)
| RegisterCapability (cap : string).

Definition run_startup_op (st : state) (op : startup_op) : state :=
  match op with
  | RegisterCommand def => w_register_command def st
  | RegisterCapability cap => w_capability_register cap st
  end.

(** The calls of [ops], first to last. *)
Definition startup (ops : list startup_op) (st : state) : state :=
  foldl run_startup_op st ops.

(** The invariant that ties the two tables together: the capability of a
    command name is supported exactly when the name is registered. *)
Definition capabilities_match_commands (st : state) : Prop :=
  ∀ n, w_capability_supported ("cmd-" +:+ n) st = true ↔ is_Some (w_ht_get (command_funcs st) n).

(** A startup call whose command name fits the capability buffer with its
    prefix (123 bytes and the 4 of the prefix make the 127 the buffer stores), or
    whose capability is not named after a command. *)
Definition short_name_op (op : startup_op) : Prop :=
  match op with
  | RegisterCommand d => (String.length (name d) <= 123)%nat
  | RegisterCapability cap => ∀ n, cap ≠ "cmd-" +:+ n
  end.

(** Every definition is stored under its own name, and every capability with
    the value [true]: what registration keeps. *)
Definition keys_are_names (st : state) : Prop :=
  ∀ key d, w_ht_get (command_funcs st) key = Some d → name d = key.
Definition capabilities_all_true (st : state) : Prop :=
  ∀ cap v, w_ht_get (capabilities st) cap = Some v → v = true.

(** The command name [lookup] reads from an argument array. *)
Definition command_name (args : json_t) : option string :=
  if decide (json_array_size args = O) then None
  else json_string_value (json_array_get args 0).

(** The rejections that the specification lists for dispatch (the table of
    its section 7, in the order of its section 4.4), written from its words, to
    be compared with what [dispatch_command] does. *)
Inductive rejection : Type :=
| MalformedCommand
| UnknownCommand
| ModeViolation
| Poisoned (reason : string)
| PermissionDenied.

Definition spec_rejection (st : state) (args : json_t) (mode : Z) : option rejection :=
  match command_name args with
  | None => Some MalformedCommand
  | Some nm =>
      match w_ht_get (command_funcs st) nm with
      | None => if decide (mode = 0) then None else Some UnknownCommand
      | Some def =>
          if decide (mode ≠ 0 ∧ Z.land (flags def) mode = 0) then Some ModeViolation
          else
            match poisoned_reason st with
            | Some reason =>
                if decide (Z.land (flags def) CMD_POISON_IMMUNE = 0) then Some (Poisoned reason)
                else if decide (client_is_owner (client st) = false
                                ∧ Z.land (flags def) CMD_ALLOW_ANY_USER = 0)
                     then Some PermissionDenied else None
            | None =>
                if decide (client_is_owner (client st) = false
                           ∧ Z.land (flags def) CMD_ALLOW_ANY_USER = 0)
                then Some PermissionDenied else None
            end
      end
  end.

(** The state in which [dispatch_command] calls [lookup]: the client holds a
    counted reference to the arguments. *)
Definition dispatch_entry (st : state) (args : json_t) : state :=
  set_args_refcount (set_client st (set_current_command (client st) (Some args)))
                    (args_refcount st + 1).

(** The two tests [dispatch_command] makes on a definition it has found. *)
Definition poison_blocks (st : state) (def : watchman_command_handler_def) : bool :=
  bool_decide (is_Some (poisoned_reason st)) && (Z.land (flags def) CMD_POISON_IMMUNE =? 0).
Definition owner_blocks (st : state) (def : watchman_command_handler_def) : bool :=
  negb (client_is_owner (client st)) && (Z.land (flags def) CMD_ALLOW_ANY_USER =? 0).

(** The calls that [dispatch_command] lets through to the handler of [d]: the
    conditions of [lookup] and of the two tests, written out. *)
Definition dispatch_accepts (st : state) (args : json_t) (mode : Z)
    (d : watchman_command_handler_def) : Prop :=
  ∃ nm, command_name args = Some nm ∧
        w_ht_get (command_funcs st) nm = Some d ∧
        (mode = 0 ∨ Z.land (flags d) mode ≠ 0) ∧
        (poisoned_reason st = None ∨ Z.land (flags d) CMD_POISON_IMMUNE ≠ 0) ∧
        (client_is_owner (client st) = true ∨ Z.land (flags d) CMD_ALLOW_ANY_USER ≠ 0).

(** The state [st] with one more error response queued on the client and the
    two transient fields of the client cleared. *)
Definition rejected_state (st : state) (msg : option string) : state :=
  set_client st (mk_client (client_is_owner (client st)) None None
                           (responses (client st) ++ [ErrorResponse msg])).

(** What it is for [st'] to come from [st] by a call of dispatch on [args]
    in which the handler of [d] was invoked: the invocation is on the trace of
    calls, and the client is the one that the handler returned, given the client
    of [st] with the arguments as its current command and the sample of the call
    as its performance sample, with the two transient fields cleared since. *)
Definition handler_invoked (cfg_get_double : string → float → float)
    (st : state) (args : json_t) (d : watchman_command_handler_def) (st' : state) : Prop :=
  calls st' = calls st ++ [(name d, args)] ∧
  client st' =
  set_perf_sample
    (set_current_command
       (func d (mk_client (client_is_owner (client st)) (Some args)
                          (Some (mk_perf (snprintf 128 ("dispatch_command:" +:+ name d))
                                         (Some (cfg_get_double
                                                  "slow_command_log_threshold_seconds"
                                                  1%float)) []))
                          (responses (client st))) args)
       None)
    None.

(** What it is for [st'] to come from [st] by a call of dispatch on [args] in
    which no handler was invoked: the trace of calls is as it was, and the
    client is the client of [st] to which no function of any definition was
    applied; it differs by one error response, queued by dispatch itself, and
    by its transient fields, either both cleared or left as dispatch set them on
    entry. *)
Definition no_handler_invoked (st : state) (args : json_t) (st' : state) : Prop :=
  calls st' = calls st ∧
  ∃ msg,
    client st' = mk_client (client_is_owner (client st)) None None
                           (responses (client st) ++ [ErrorResponse msg]) ∨
    client st' = mk_client (client_is_owner (client st)) (Some args) (perf_sample (client st))
                           (responses (client st) ++ [ErrorResponse msg]).

(** [poisoned_reason] is a global that other files write. *)
Definition set_poisoned_reason (st : state) (reason : option string) : state :=
  mk_state (command_funcs st) (capabilities st) reason (client st) (args_refcount st)
           (calls st) (log st).

(** ** Sample commands and clients *)

(** A handler that answers with the arguments it was given. *)
Definition reply_args : watchman_command_func :=
  λ c args, mk_client (client_is_owner c) (current_command c) (perf_sample c)
                      (responses c ++ [Response args]).

(** A validator that wants at least one argument after the command name. *)
Definition needs_argument : watchman_cli_cmd_validate_func :=
  λ args, if decide (json_array_size args < 2)%nat then Some "wrong number of arguments" else None.

Definition cmd_find : watchman_command_handler_def :=
  mk_def "find" reply_args (Z.lor CMD_DAEMON CMD_ALLOW_ANY_USER) (Some needs_argument).
Definition cmd_get_pid : watchman_command_handler_def :=
  mk_def "get-pid" reply_args
         (Z.lor CMD_DAEMON (Z.lor CMD_POISON_IMMUNE CMD_ALLOW_ANY_USER)) None.
Definition cmd_shutdown_server : watchman_command_handler_def :=
  mk_def "shutdown-server" reply_args CMD_DAEMON None.
Definition cmd_find_v2 : watchman_command_handler_def :=
  mk_def "find" reply_args CMD_DAEMON None.
(** A command whose name has 124 bytes. *)
Definition cmd_long_name : watchman_command_handler_def :=
  mk_def (repeat_char "a" 124) reply_args CMD_DAEMON None.

Definition owner_client : watchman_client := mk_client true None None [].
Definition other_client : watchman_client := mk_client false None None [].

(** A configuration without the threshold set, and a clock that never finds a
    sample slow. *)
Definition cfg_defaults : string → float → float := λ _ dflt, dflt.
Definition never_slow : w_perf_t → bool := λ _, false.
(** A clock that finds every sample slow. *)
Definition always_slow : w_perf_t → bool := λ _, true.

(** A daemon that has registered "shutdown-server" (for the owner only, not
    immune to poison), serving a client that is not the owner; the same daemon
    poisoned. *)
Definition guarded_daemon : state :=
  w_register_command cmd_shutdown_server (initial_state other_client).
Definition poisoned_daemon : state :=
  set_poisoned_reason guarded_daemon (Some "disk full").

(** A daemon that has registered "find" (open to any user, with a validator),
    serving its owner. *)
Definition find_daemon : state :=
  w_register_command cmd_find (initial_state owner_client).

(** * Properties *)

(** ** C strings *)

Section CStringFacts.

Lemma byte_nonneg c : 0 <= byte c.
Proof. unfold byte. lia. Qed.

Lemma byte_inj c1 c2 : byte c1 = byte c2 -> c1 = c2.
Proof.
  unfold byte. intros H. apply Z2N.inj_iff in H; try lia.
  rewrite !N2Z.id in H.
  rewrite <- (ascii_N_embedding c1), <- (ascii_N_embedding c2). by f_equal.
Qed.

Lemma byte_NUL c : byte c = 0 <-> c = NUL.
Proof.
  split; [|by intros ->].
  intros H. apply byte_inj. by rewrite H.
Qed.

(** Swapping the arguments of [strcmp] negates the result. *)
Lemma strcmp_swap a b : strcmp b a = - strcmp a b.
Proof.
  revert b. induction a as [|x a IH]; intros [|y b]; simpl; try lia.
  destruct (decide (x = y)) as [->|Hxy].
  - rewrite decide_True by done. destruct (decide (y = NUL)); [done | apply IH].
  - rewrite decide_False by congruence. lia.
Qed.

Lemma strcmp_refl a : strcmp a a = 0.
Proof.
  induction a as [|x a IH]; simpl; [done|].
  rewrite decide_True by done. by destruct (decide (x = NUL)).
Qed.

Lemma byte_neq c1 c2 : c1 <> c2 -> byte c1 <> byte c2.
Proof. intros H ?%byte_inj. done. Qed.

Lemma byte_not_NUL c : c <> NUL -> byte c <> 0.
Proof. intros H ?%byte_NUL. done. Qed.

(** Collects what is known of the bytes in the context, for [lia]. *)
Ltac byte_facts :=
  repeat match goal with
    | H : ?x <> NUL |- _ => apply byte_not_NUL in H
    | H : ?x <> ?y :> ascii |- _ => apply byte_neq in H
    end;
  repeat match goal with
    | c : ascii |- _ =>
        lazymatch goal with
        | _ : 0 <= byte c |- _ => fail
        | _ => pose proof (byte_nonneg c)
        end
    end;
  change (byte NUL) with 0 in *.

(** [strcmp a b <= 0] is transitive. *)
Lemma strcmp_le_trans a b c :
  strcmp a b <= 0 -> strcmp b c <= 0 -> strcmp a c <= 0.
Proof.
  revert b c. induction a as [|x a IH]; intros [|y b] [|z c]; simpl;
    repeat case_decide; subst; try done; try (byte_facts; lia).
  apply IH.
Qed.

(** On strings without a NUL byte the sign of [strcmp] is the lexicographic
    comparison of the byte sequences. *)
Lemma strcmp_lexicographic a b :
  nul_free a = true → nul_free b = true →
  (strcmp a b ?= 0) = (a ?= b)%string.
Proof.
  revert b. induction a as [|x a IH]; intros [|y b]; simpl; try done.
  - intros _ [Hy _]%andb_prop. apply negb_true_iff, bool_decide_eq_false in Hy.
    byte_facts. apply Z.compare_lt_iff. lia.
  - intros [Hx _]%andb_prop _. apply negb_true_iff, bool_decide_eq_false in Hx.
    byte_facts. apply Z.compare_gt_iff. lia.
  - intros [Hx Ha]%andb_prop [Hy Hb]%andb_prop.
    apply negb_true_iff, bool_decide_eq_false in Hx.
    unfold Ascii.compare. destruct (decide (x = y)) as [<-|Hxy].
    + rewrite decide_False by done. rewrite N.compare_refl. by apply IH.
    + rewrite <- Z.compare_sub. unfold byte. rewrite N2Z.inj_compare.
      destruct (N.compare_spec (N_of_ascii x) (N_of_ascii y)) as [Heq| |]; try done.
      exfalso. apply Hxy.
      rewrite <- (ascii_N_embedding x), <- (ascii_N_embedding y). by rewrite Heq.
Qed.

Lemma truncate_short n s : (String.length s <= n)%nat -> truncate n s = s.
Proof.
  revert s. induction n as [|n IH]; intros [|c s]; simpl; try done; try lia.
  intros H. f_equal. apply IH. lia.
Qed.

Lemma length_truncate n s : (String.length (truncate n s) <= n)%nat.
Proof.
  revert s. induction n as [|n IH]; intros [|c s]; simpl; try lia.
  specialize (IH s). lia.
Qed.

Lemma string_length_app (a b : string) :
  String.length (a +:+ b) = (String.length a + String.length b)%nat.
Proof. induction a as [|x a IH]; simpl; [done | by rewrite IH]. Qed.

End CStringFacts.

#[global] Instance compare_def_total : Total (compar_le compare_def).
Proof.
  intros a b. unfold compar_le, compare_def.
  rewrite (strcmp_swap (name a) (name b)). lia.
Qed.

#[global] Instance compare_def_trans : Transitive (compar_le compare_def).
Proof. intros a b c. unfold compar_le, compare_def. apply strcmp_le_trans. Qed.

(** ** The registry and the capability set *)

Section Registry.

Implicit Types (st : state) (d : watchman_command_handler_def) (n cap : string).

Lemma w_ht_get_set {V} (ht : w_ht_t V) key key' (v : V) :
  w_ht_get (Some (w_ht_set (default ∅ ht) key v)) key' =
  if decide (key = key') then Some v else w_ht_get ht key'.
Proof.
  unfold w_ht_get, w_ht_set. simpl. rewrite lookup_insert.
  case_decide; [done|]. destruct ht; simpl; [done | apply lookup_empty].
Qed.

Lemma command_funcs_register d st n :
  w_ht_get (command_funcs (w_register_command d st)) n =
  if decide (name d = n) then Some d else w_ht_get (command_funcs st) n.
Proof.
  unfold w_register_command, w_capability_register, set_capabilities, set_command_funcs.
  cbn [command_funcs]. apply w_ht_get_set.
Qed.

Lemma command_funcs_register_capability cap st :
  command_funcs (w_capability_register cap st) = command_funcs st.
Proof. reflexivity. Qed.

Lemma supported_register_capability cap cap' st :
  w_capability_supported cap' (w_capability_register cap st) =
  if decide (cap = cap') then true else w_capability_supported cap' st.
Proof.
  unfold w_capability_supported, w_capability_register, set_capabilities.
  cbn [capabilities]. rewrite w_ht_get_set. by case_decide.
Qed.

Lemma supported_register d cap' st :
  w_capability_supported cap' (w_register_command d st) =
  if decide (snprintf 128 ("cmd-" +:+ name d) = cap') then true
  else w_capability_supported cap' st.
Proof. unfold w_register_command. by rewrite supported_register_capability. Qed.

(** A command name of at most 123 bytes fits the buffer with its prefix. *)
Lemma capname_fits n :
  (String.length n <= 123)%nat -> snprintf 128 ("cmd-" +:+ n) = "cmd-" +:+ n.
Proof.
  intros H. unfold snprintf. apply truncate_short.
  rewrite string_length_app. simpl. lia.
Qed.

(** In tolerant mode [lookup] is the table lookup of element 0. *)
Lemma lookup_tolerant st n rest errmsg :
  lookup st (JArray (JString n :: rest)) errmsg 0 = (w_ht_get (command_funcs st) n, errmsg).
Proof.
  unfold lookup. simpl. unfold json_to_w_string. simpl.
  by destruct (w_ht_get (command_funcs st) n).
Qed.

Lemma capabilities_match_initial c : capabilities_match_commands (initial_state c).
Proof. intros n. split; [done | by intros [? ?]]. Qed.

Lemma capabilities_match_step st op :
  short_name_op op ->
  capabilities_match_commands st ->
  capabilities_match_commands (run_startup_op st op).
Proof.
  intros Hop Hinv n. destruct op as [d|cap]; cbn [run_startup_op short_name_op] in *.
  - rewrite supported_register, command_funcs_register, capname_fits by done.
    destruct (decide (name d = n)) as [->|Hne].
    + rewrite decide_True by done. split; eauto.
    + rewrite decide_False; [apply Hinv|].
      intros Heq. by apply (inj (String.app "cmd-")) in Heq.
  - rewrite supported_register_capability, command_funcs_register_capability.
    rewrite decide_False by apply Hop. apply Hinv.
Qed.

Lemma capabilities_match_startup ops st :
  Forall short_name_op ops ->
  capabilities_match_commands st ->
  capabilities_match_commands (startup ops st).
Proof.
  unfold startup. intros Hops. revert st.
  induction Hops as [|op ops Hop _ IH]; intros st Hinv; simpl; [done|].
  apply IH. by apply capabilities_match_step.
Qed.

(** The commands a startup sequence registers are those found afterwards. *)
Lemma startup_registered ops st n :
  is_Some (w_ht_get (command_funcs (startup ops st)) n) ↔
  is_Some (w_ht_get (command_funcs st) n) ∨ ∃ d, RegisterCommand d ∈ ops ∧ name d = n.
Proof.
  unfold startup. revert st. induction ops as [|op ops IH]; intros st; simpl.
  - split; [auto|]. intros [?|(d & Hd & _)]; [done|]. by apply elem_of_nil in Hd.
  - rewrite IH. destruct op as [d|cap]; cbn [run_startup_op].
    + rewrite command_funcs_register. split.
      * intros [H|(d' & Hd' & <-)].
        -- case_decide; [right; exists d; split; [left | done] | by left].
        -- right. exists d'. split; [by right | done].
      * intros [H|(d' & Hd' & <-)].
        -- left. case_decide; eauto.
        -- apply elem_of_cons in Hd' as [Heq|Hd'].
           ++ injection Heq as <-. left. rewrite decide_True by done. eauto.
           ++ right. eauto.
    + rewrite command_funcs_register_capability. split.
      * intros [H|(d' & Hd' & <-)]; [by left|]. right. exists d'. split; [by right | done].
      * intros [H|(d' & Hd' & <-)]; [by left|].
        apply elem_of_cons in Hd' as [Heq|Hd']; [done|]. right. eauto.
Qed.

End Registry.

(** C8. Registering two definitions with distinct names makes both resolvable
    by lookup; registering a second definition under a name already registered
    replaces the earlier one, so that lookup of the name yields the later
    definition.  Registration itself cannot fail: [w_register_command] is a
    total function, and lookup leaves the error message as it was. *)
Theorem register_two_then_lookup (st : state) (d1 d2 : watchman_command_handler_def)
    (rest : list json_t) (errmsg : option string) :
  let st' := w_register_command d2 (w_register_command d1 st) in
  (name d1 ≠ name d2 →
   lookup st' (JArray (JString (name d1) :: rest)) errmsg 0 = (Some d1, errmsg) ∧
   lookup st' (JArray (JString (name d2) :: rest)) errmsg 0 = (Some d2, errmsg)) ∧
  (name d1 = name d2 →
   lookup st' (JArray (JString (name d1) :: rest)) errmsg 0 = (Some d2, errmsg)).
Proof.
  intros st'. subst st'. rewrite !lookup_tolerant, !command_funcs_register. split.
  - intros Hne. rewrite (decide_False (P := name d2 = name d1)) by congruence.
    by rewrite !decide_True.
  - intros Heq. by rewrite decide_True.
Qed.

Lemma register_two_then_lookup_witness :
  (lookup (w_register_command cmd_get_pid (w_register_command cmd_find (initial_state owner_client)))
          (JArray [JString "find"; JString "/tmp"]) None 0 = (Some cmd_find, None) ∧
   lookup (w_register_command cmd_get_pid (w_register_command cmd_find (initial_state owner_client)))
          (JArray [JString "get-pid"; JString "/tmp"]) None 0 = (Some cmd_get_pid, None)) ∧
  lookup (w_register_command cmd_find_v2 (w_register_command cmd_find (initial_state owner_client)))
         (JArray [JString "find"; JString "/tmp"]) None 0 = (Some cmd_find_v2, None).
Proof.
  split.
  - apply (proj1 (register_two_then_lookup (initial_state owner_client) cmd_find cmd_get_pid
                    [JString "/tmp"] None)).
    simpl. discriminate.
  - apply (proj2 (register_two_then_lookup (initial_state owner_client) cmd_find cmd_find_v2
                    [JString "/tmp"] None)).
    reflexivity.
Defined.

(** C7, as stated, fails for a long name: the capability is built in a buffer
    of 128 bytes, so after registering a command whose name has 124 bytes the
    capability "cmd-" followed by that name is not supported. *)
Lemma long_name_capability_not_supported :
  w_ht_get (command_funcs (w_register_command cmd_long_name (initial_state owner_client)))
           (name cmd_long_name) = Some cmd_long_name ∧
  w_capability_supported ("cmd-" +:+ name cmd_long_name)
    (w_register_command cmd_long_name (initial_state owner_client)) = false.
Proof.
  split.
  - rewrite command_funcs_register. by rewrite decide_True.
  - rewrite supported_register. rewrite decide_False; [done|].
    intros H. apply (f_equal String.length) in H. vm_compute in H. discriminate.
Qed.

(** C7, amended.  After a startup made of registrations of commands whose names
    have at most 123 bytes and of registrations of capabilities that are not
    named after a command, the capability "cmd-" followed by a name is
    supported if and only if a command of that name has been registered: it is
    not supported before anything is registered, and it is supported once the
    command is. *)
Theorem cmd_capability_iff_registered (c : watchman_client) (ops : list startup_op) (n : string) :
  Forall short_name_op ops →
  w_capability_supported ("cmd-" +:+ n) (initial_state c) = false ∧
  (w_capability_supported ("cmd-" +:+ n) (startup ops (initial_state c)) = true ↔
   is_Some (w_ht_get (command_funcs (startup ops (initial_state c))) n)) ∧
  (is_Some (w_ht_get (command_funcs (startup ops (initial_state c))) n) ↔
   ∃ d, RegisterCommand d ∈ ops ∧ name d = n).
Proof.
  intros Hops. split; [done|]. split.
  - by apply capabilities_match_startup, capabilities_match_initial.
  - rewrite startup_registered. split; [|auto].
    intros [[? H]|H]; [done | exact H].
Qed.

Lemma cmd_capability_iff_registered_witness :
  w_capability_supported "cmd-find" (initial_state owner_client) = false ∧
  (w_capability_supported "cmd-find"
     (startup [RegisterCapability "term-allof"; RegisterCommand cmd_find]
              (initial_state owner_client)) = true ↔
   is_Some (w_ht_get (command_funcs (startup [RegisterCapability "term-allof"; RegisterCommand cmd_find]
                                             (initial_state owner_client))) "find")) ∧
  (is_Some (w_ht_get (command_funcs (startup [RegisterCapability "term-allof"; RegisterCommand cmd_find]
                                             (initial_state owner_client))) "find") ↔
   ∃ d, RegisterCommand d ∈ [RegisterCapability "term-allof"; RegisterCommand cmd_find] ∧
        name d = "find").
Proof.
  apply (cmd_capability_iff_registered owner_client
           [RegisterCapability "term-allof"; RegisterCommand cmd_find] "find").
  constructor; [intros n; simpl; discriminate|].
  constructor; [simpl; lia | constructor].
Defined.

(** ** The sorted command list *)

Lemma w_ht_values_size_0 {V} (ht : w_ht_t V) : w_ht_size ht = O → w_ht_values ht = [].
Proof.
  destruct ht as [m|]; simpl; [|done].
  intros ->%map_size_empty_inv. by rewrite map_to_list_empty.
Qed.

Lemma elem_of_w_ht_values {V} (ht : w_ht_t V) (v : V) :
  v ∈ w_ht_values ht ↔ ∃ key, w_ht_get ht key = Some v.
Proof.
  destruct ht as [m|]; simpl.
  - rewrite list_elem_of_fmap. split.
    + intros ([key v'] & -> & H%elem_of_map_to_list). by exists key.
    + intros (key & H). exists (key, v). by rewrite elem_of_map_to_list.
  - split; [by intros ?%elem_of_nil | by intros [? ?]].
Qed.

(** [qsort] with [compare_def] sorts, and keeps the elements. *)
Lemma qsort_compare_def_sorted (defs : list watchman_command_handler_def) :
  StronglySorted (compar_le compare_def) (qsort compare_def defs).
Proof. apply (StronglySorted_merge_sort _). Qed.

Lemma qsort_Permutation {A} (compar : A -> A -> Z) (base : list A) :
  qsort compar base ≡ₚ base.
Proof. apply merge_sort_Permutation. Qed.

(** C9. Whatever the registry holds, and so whatever the order of the
    registrations that filled it, the list printed for the help text holds the
    registered definitions, each once, in ascending order of their names as
    [strcmp] compares them; the text is the heading followed by one line for each
    name in that order. *)
Theorem help_list_sorted_by_name (st : state) :
  StronglySorted (λ a b, strcmp (name a) (name b) <= 0) (sorted_command_list st) ∧
  sorted_command_list st ≡ₚ w_ht_values (command_funcs st) ∧
  (∀ d, d ∈ sorted_command_list st ↔ ∃ key, w_ht_get (command_funcs st) key = Some d) ∧
  print_command_list_for_help st =
    (newline +:+ newline +:+ "Available commands:" +:+ newline +:+ newline) +:+
    foldr (λ d out, ("      " +:+ name d +:+ newline) +:+ out) EmptyString (sorted_command_list st).
Proof.
  assert (Hperm : sorted_command_list st ≡ₚ w_ht_values (command_funcs st)).
  { unfold sorted_command_list. case_decide; [apply qsort_Permutation | done]. }
  split; [|split; [done|split; [|done]]].
  - unfold sorted_command_list. case_decide.
    + apply qsort_compare_def_sorted.
    + rewrite w_ht_values_size_0 by lia. constructor.
  - intros d. by rewrite Hperm, elem_of_w_ht_values.
Qed.

(** Registering "get-pid" and then "find" lists "find" first. *)
Example help_list_find_get_pid :
  name <$> sorted_command_list
             (w_register_command cmd_find (w_register_command cmd_get_pid (initial_state owner_client)))
  = ["find"; "get-pid"].
Proof. vm_compute. reflexivity. Qed.

(** ** Lookup *)

Lemma lookup_ext st1 st2 args errmsg mode :
  command_funcs st1 = command_funcs st2 →
  lookup st1 args errmsg mode = lookup st2 args errmsg mode.
Proof. intros H. unfold lookup. by rewrite H. Qed.

(** [lookup] rejects an argument array without a command name. *)
Lemma lookup_malformed st args errmsg mode :
  command_name args = None →
  fst (lookup st args errmsg mode) = None ∧
  (snd (lookup st args errmsg mode)
     = Some "invalid command (expected an array with some elements!)" ∨
   snd (lookup st args errmsg mode)
     = Some "invalid command: expected element 0 to be the command name").
Proof.
  unfold lookup, command_name. case_decide; [by auto|].
  intros ->. by auto.
Qed.

(** [lookup] of an argument array that starts with a command name. *)
Lemma lookup_named st args errmsg mode nm :
  command_name args = Some nm →
  lookup st args errmsg mode =
  match w_ht_get (command_funcs st) nm with
  | Some def =>
      if negb (mode =? 0) && (Z.land (flags def) mode =? 0) then
        (None, Some ("command " +:+ nm +:+ " not available in this mode"))
      else (Some def, errmsg)
  | None => (None, if negb (mode =? 0) then Some ("unknown command " +:+ nm) else errmsg)
  end.
Proof.
  unfold lookup, command_name, json_to_w_string. case_decide; [done|].
  intros ->. reflexivity.
Qed.

(** A definition that [lookup] returns is the one registered under the name,
    and it passes the mode test. *)
Lemma lookup_found st args errmsg mode d em :
  lookup st args errmsg mode = (Some d, em) →
  ∃ nm, command_name args = Some nm ∧ w_ht_get (command_funcs st) nm = Some d ∧
        (mode = 0 ∨ Z.land (flags d) mode ≠ 0) ∧ em = errmsg.
Proof.
  destruct (command_name args) as [nm|] eqn:Hnm.
  - rewrite (lookup_named _ _ _ _ nm) by done.
    destruct (w_ht_get (command_funcs st) nm) as [d'|] eqn:Hget; [|done].
    destruct (Z.eqb_spec mode 0) as [->|Hm]; simpl.
    + intros [= <- <-]. exists nm. repeat split; auto.
    + destruct (Z.eqb_spec (Z.land (flags d') mode) 0); [done|].
      intros [= <- <-]. exists nm. repeat split; auto.
  - intros H. destruct (lookup_malformed st args errmsg mode Hnm) as [Hf _].
    by rewrite H in Hf.
Qed.

(** ** The paths of dispatch *)

Section DispatchPaths.

Variable cfg_get_double : string → float → float.
Variable sample_finish : w_perf_t → bool.

#[local] Abbreviation dispatch := (dispatch_command cfg_get_double sample_finish).
#[local] Abbreviation execute := (dispatch_execute cfg_get_double sample_finish).

Implicit Types (st : state) (d : watchman_command_handler_def) (args : json_t) (mode : Z).

(** [dispatch_command], with the state at the call of [lookup] named. *)
Lemma dispatch_command_eq st args mode :
  dispatch st args mode =
  match lookup st args None mode with
  | (None, errmsg) =>
      dispatch_done (send_error_response (dispatch_entry st args) errmsg) args false
  | (Some d, _) =>
      if poison_blocks st d then
        dispatch_done (send_error_response (dispatch_entry st args) (poisoned_reason st))
                      args false
      else if owner_blocks st d then
        (false,
         send_error_response (dispatch_entry st args)
           (Some ("you must be the process owner to execute '" +:+ name d +:+ "'")))
      else dispatch_done (execute (dispatch_entry st args) d args) args true
  end.
Proof.
  unfold dispatch_command.
  cbn [current_command client set_client set_current_command json_incref].
  rewrite decide_True by done.
  rewrite (lookup_ext _ st) by done.
  by destruct (lookup st args None mode) as [[d|] errmsg].
Qed.

(** A pointer to the argument array moves its counter. *)
Lemma json_incref_args st args :
  json_incref st args (Some args) = set_args_refcount st (args_refcount st + 1).
Proof. unfold json_incref. by rewrite decide_True. Qed.

Lemma json_decref_args st args :
  json_decref st args (Some args) = set_args_refcount st (args_refcount st - 1).
Proof. unfold json_decref. by rewrite decide_True. Qed.

(** [json_decref] changes the counter at most. *)
Lemma json_decref_counter st args p :
  ∃ n, json_decref st args p = set_args_refcount st n.
Proof.
  destruct p as [j|]; simpl; [case_decide|]; eauto;
    exists (args_refcount st); by destruct st.
Qed.

(** The label [done]: the result is returned, the two transient fields of the
    client are cleared, and nothing else but the counter changes. *)
Lemma dispatch_done_frame st args result :
  ∃ n, dispatch_done st args result =
       (result,
        mk_state (command_funcs st) (capabilities st) (poisoned_reason st)
                 (mk_client (client_is_owner (client st)) None None (responses (client st)))
                 n (calls st) (log st)).
Proof.
  unfold dispatch_done.
  destruct (json_decref_counter st args (current_command (client st))) as [n ->].
  by exists n.
Qed.

(** What the sample scope changes. *)
Lemma execute_calls st d args : calls (execute st d args) = calls st ++ [(name d, args)].
Proof.
  unfold dispatch_execute. destruct (sample_finish _); [rewrite json_incref_args|]; done.
Qed.

Lemma execute_client st d args :
  client (execute st d args) =
  func d (set_perf_sample (client st)
            (Some (mk_perf (snprintf 128 ("dispatch_command:" +:+ name d))
                           (Some (cfg_get_double "slow_command_log_threshold_seconds" 1%float))
                           []))) args.
Proof.
  unfold dispatch_execute. destruct (sample_finish _); [rewrite json_incref_args|]; done.
Qed.

Lemma execute_globals st d args :
  command_funcs (execute st d args) = command_funcs st ∧
  capabilities (execute st d args) = capabilities st ∧
  poisoned_reason (execute st d args) = poisoned_reason st.
Proof.
  unfold dispatch_execute. destruct (sample_finish _); [rewrite json_incref_args|]; done.
Qed.

(** The path through the label [done] after an error response: the handler
    is not called, the reference is dropped and both fields are cleared. *)
Lemma dispatch_done_after_error st args msg :
  let r := dispatch_done (send_error_response (dispatch_entry st args) msg) args false in
  fst r = false ∧
  responses (client (snd r)) = responses (client st) ++ [ErrorResponse msg] ∧
  calls (snd r) = calls st ∧
  current_command (client (snd r)) = None ∧
  perf_sample (client (snd r)) = None ∧
  args_refcount (snd r) = args_refcount st.
Proof.
  unfold dispatch_done. cbn [send_error_response dispatch_entry current_command client
    set_client set_current_command set_args_refcount].
  rewrite json_decref_args. simpl. repeat split; try done. lia.
Qed.

(** [lookup] returned NULL. *)
Lemma dispatch_not_found st args mode errmsg :
  lookup st args None mode = (None, errmsg) →
  dispatch st args mode
  = dispatch_done (send_error_response (dispatch_entry st args) errmsg) args false.
Proof. intros H. by rewrite dispatch_command_eq, H. Qed.

(** The daemon is poisoned and the command is not immune. *)
Lemma dispatch_poisoned st args mode d errmsg :
  lookup st args None mode = (Some d, errmsg) →
  poison_blocks st d = true →
  dispatch st args mode =
  dispatch_done (send_error_response (dispatch_entry st args) (poisoned_reason st)) args false.
Proof. intros H Hp. by rewrite dispatch_command_eq, H, Hp. Qed.

(** The client is not the owner and the command is not for any user: the
    function returns at once. *)
Lemma dispatch_denied st args mode d errmsg :
  lookup st args None mode = (Some d, errmsg) →
  poison_blocks st d = false →
  owner_blocks st d = true →
  dispatch st args mode =
  (false,
   send_error_response (dispatch_entry st args)
     (Some ("you must be the process owner to execute '" +:+ name d +:+ "'"))).
Proof. intros H Hp Ho. by rewrite dispatch_command_eq, H, Hp, Ho. Qed.

(** The handler runs. *)
Lemma dispatch_executed st args mode d errmsg :
  lookup st args None mode = (Some d, errmsg) →
  poison_blocks st d = false →
  owner_blocks st d = false →
  dispatch st args mode = dispatch_done (execute (dispatch_entry st args) d args) args true.
Proof. intros H Hp Ho. by rewrite dispatch_command_eq, H, Hp, Ho. Qed.

(** Replaces a pass through the label [done] by its result. *)
Ltac done_frame :=
  match goal with
  | |- context [dispatch_done ?s ?a ?r] =>
      let n := fresh "n" in destruct (dispatch_done_frame s a r) as [n ->]
  end.

(** The handler is called exactly when the result is [true]. *)
Lemma dispatch_calls st args mode :
  let r := dispatch st args mode in
  (fst r = false ∧ calls (snd r) = calls st) ∨
  (∃ d errmsg, lookup st args None mode = (Some d, errmsg) ∧ poison_blocks st d = false ∧
               owner_blocks st d = false ∧
               fst r = true ∧ calls (snd r) = calls st ++ [(name d, args)]).
Proof.
  intros r. subst r. rewrite dispatch_command_eq.
  destruct (lookup st args None mode) as [[d|] errmsg]; [|done_frame; by left].
  destruct (poison_blocks st d) eqn:Hp; [done_frame; by left|].
  destruct (owner_blocks st d) eqn:Ho; [by left|].
  right. exists d, errmsg. done_frame. repeat split; try done.
  cbn [snd calls]. by rewrite execute_calls.
Qed.

(** A call that reaches the handler is none of the specification's rejections. *)
Lemma spec_rejection_executed st args mode d errmsg :
  lookup st args None mode = (Some d, errmsg) →
  poison_blocks st d = false →
  owner_blocks st d = false →
  spec_rejection st args mode = None.
Proof.
  intros (nm & Hnm & Hget & Hmode & _)%lookup_found Hp Ho.
  unfold spec_rejection. rewrite Hnm, Hget.
  rewrite decide_False by (intros [? ?]; destruct Hmode; done).
  unfold poison_blocks, owner_blocks in *.
  assert (¬ (client_is_owner (client st) = false ∧ Z.land (flags d) CMD_ALLOW_ANY_USER = 0)).
  { intros [Hc Hz]. by rewrite Hc, Hz in Ho. }
  destruct (poisoned_reason st) as [reason|].
  - rewrite bool_decide_eq_true_2 in Hp by eauto. rewrite andb_true_l in Hp.
    apply Z.eqb_neq in Hp. by rewrite !decide_False.
  - by rewrite decide_False.
Qed.

(** The calls that the specification does not reject are the unknown commands
    of mode 0 and the calls that reach the handler. *)
Lemma spec_rejection_None st args mode :
  spec_rejection st args mode = None ↔
  (∃ nm, command_name args = Some nm ∧ w_ht_get (command_funcs st) nm = None ∧ mode = 0) ∨
  (∃ d errmsg, lookup st args None mode = (Some d, errmsg) ∧
               poison_blocks st d = false ∧ owner_blocks st d = false).
Proof.
  split.
  - unfold spec_rejection.
    destruct (command_name args) as [nm|] eqn:Hnm; [|done].
    destruct (w_ht_get (command_funcs st) nm) as [d|] eqn:Hget.
    + case_decide as Hmode; [done|]. intros H. right. exists d, None.
      split.
      { rewrite (lookup_named _ _ _ _ nm), Hget by done.
        destruct (Z.eqb_spec mode 0); [done|].
        destruct (Z.eqb_spec (Z.land (flags d) mode) 0); [|done].
        by destruct Hmode. }
      unfold poison_blocks, owner_blocks.
      destruct (poisoned_reason st) as [reason|].
      * case_decide as Himm; [done|]. case_decide as Hown; [done|].
        apply Z.eqb_neq in Himm. rewrite Himm, andb_false_r. split; [done|].
        destruct (client_is_owner (client st)); [done|].
        destruct (Z.eqb_spec (Z.land (flags d) CMD_ALLOW_ANY_USER) 0); [|done].
        by destruct Hown.
      * case_decide as Hown; [done|].
        rewrite bool_decide_eq_false_2 by (by intros [? ?]). split; [done|].
        destruct (client_is_owner (client st)); [done|].
        destruct (Z.eqb_spec (Z.land (flags d) CMD_ALLOW_ANY_USER) 0); [|done].
        by destruct Hown.
    + case_decide; [|done]. intros _. left. by exists nm.
  - intros [(nm & Hnm & Hget & ->)|(d & errmsg & Hl & Hp & Ho)].
    + unfold spec_rejection. by rewrite Hnm, Hget.
    + by apply (spec_rejection_executed _ _ _ d errmsg).
Qed.

(** Every call of dispatch either invokes no handler and returns [false], or
    passes the tests, invokes the handler of the definition found and returns
    [true]. *)
Lemma dispatch_outcome st args mode :
  let r := dispatch st args mode in
  (fst r = false ∧ no_handler_invoked st args (snd r)) ∨
  (∃ d errmsg, lookup st args None mode = (Some d, errmsg) ∧ poison_blocks st d = false ∧
               owner_blocks st d = false ∧
               fst r = true ∧ handler_invoked cfg_get_double st args d (snd r)).
Proof.
  intros r. subst r. rewrite dispatch_command_eq.
  destruct (lookup st args None mode) as [[d|] errmsg].
  - destruct (poison_blocks st d) eqn:Hp.
    { done_frame. left. split; [done|]. split; [done|].
      exists (poisoned_reason st). by left. }
    destruct (owner_blocks st d) eqn:Ho.
    { left. split; [done|]. split; [done|].
      exists (Some ("you must be the process owner to execute '" +:+ name d +:+ "'")).
      by right. }
    right. exists d, errmsg. done_frame. repeat split; try done.
    + cbn [snd calls]. by rewrite execute_calls.
    + cbn [snd client]. by rewrite execute_client.
  - done_frame. left. split; [done|]. split; [done|]. exists errmsg. by left.
Qed.

(** C1. Dispatch returns [true] if and only if the handler of the command it
    looked up was invoked: the function of that definition was applied to the
    client (holding the argument array as its current command) and to the
    argument array, and the invocation is on the trace of calls.  It returns
    [false] if and only if no handler was invoked: the trace of calls is as it
    was and the client is the one of the call with an error response queued by
    dispatch, no function of a definition having been applied to it.  Each
    rejection that the specification lists (malformed arguments, unknown command
    in a strict mode, mode violation, poisoned, permission denied) makes it
    return [false] with no handler invoked. *)
Theorem dispatch_true_iff_handler_invoked st args mode :
  let r := dispatch_command cfg_get_double sample_finish st args mode in
  (fst r = true ↔
   ∃ d, fst (lookup st args None mode) = Some d ∧
        handler_invoked cfg_get_double st args d (snd r)) ∧
  (fst r = false ↔ no_handler_invoked st args (snd r)) ∧
  (∀ k, spec_rejection st args mode = Some k →
        fst r = false ∧ no_handler_invoked st args (snd r)).
Proof.
  intros r.
  assert (Hgrow : ∀ x, calls st ≠ calls st ++ [x]).
  { intros x H%(f_equal length). rewrite length_app in H. simpl in H. lia. }
  destruct (dispatch_outcome st args mode)
    as [[Hf Hno]|(d & errmsg & Hl & Hp & Ho & Ht & Hinv)];
    fold r in Hf, Hno || fold r in Ht, Hinv.
  - split; [|split].
    + split; [rewrite Hf; discriminate|].
      intros (d & _ & Hc & _). destruct Hno as [Hc' _]. rewrite Hc' in Hc.
      by apply Hgrow in Hc.
    + by split.
    + by intros k _.
  - split; [|split].
    + split; [|done]. intros _. exists d. by rewrite Hl.
    + split; [rewrite Ht; discriminate|].
      intros [Hc _]. destruct Hinv as [Hc' _]. rewrite Hc' in Hc. symmetry in Hc.
      by apply Hgrow in Hc.
    + intros k H. by rewrite (spec_rejection_executed _ _ _ _ _ Hl Hp Ho) in H.
Qed.

(** Dispatch returns [true] exactly for the calls that find a definition and
    that the specification does not reject. *)
Lemma dispatch_true_iff_accepted st args mode :
  fst (dispatch st args mode) = true ↔
  spec_rejection st args mode = None ∧ is_Some (fst (lookup st args None mode)).
Proof.
  rewrite spec_rejection_None. split.
  - destruct (dispatch_calls st args mode) as [[Hf _]|(d & errmsg & Hl & Hp & Ho & _)].
    + rewrite Hf. discriminate.
    + intros _. split; [right; by exists d, errmsg | rewrite Hl; by eexists].
  - intros [[(nm & Hnm & Hget & ->)|(d & errmsg & Hl & Hp & Ho)] Hsome].
    + rewrite (lookup_named _ _ _ _ nm), Hget in Hsome by done. by destruct Hsome.
    + by rewrite (dispatch_executed _ _ _ _ _ Hl Hp Ho).
Qed.

(** C10. A call of dispatch leaves the command table and the capability table
    as they were; [lookup] returns no state at all. *)
Theorem dispatch_preserves_registry st args mode :
  command_funcs (snd (dispatch_command cfg_get_double sample_finish st args mode)) = command_funcs st ∧
  capabilities (snd (dispatch_command cfg_get_double sample_finish st args mode)) = capabilities st.
Proof.
  rewrite dispatch_command_eq.
  destruct (lookup st args None mode) as [[d|] errmsg]; [|by done_frame].
  destruct (poison_blocks st d); [by done_frame|].
  destruct (owner_blocks st d); [done|].
  destruct (execute_globals (dispatch_entry st args) d args) as (Hf & Hc & _).
  done_frame. cbn [snd command_funcs capabilities]. by rewrite Hf, Hc.
Qed.

(** C4. A registered command that passes the mode test and lacks the
    poison-immune flag is refused with the poison reason whenever the daemon is
    poisoned, whoever the client is and whether or not the command is open to
    any user: the poison test comes before the ownership test. *)
Theorem poison_reported_before_ownership st args mode nm d reason :
  command_name args = Some nm →
  w_ht_get (command_funcs st) nm = Some d →
  mode = 0 ∨ Z.land (flags d) mode ≠ 0 →
  Z.land (flags d) CMD_POISON_IMMUNE = 0 →
  poisoned_reason st = Some reason →
  let r := dispatch_command cfg_get_double sample_finish st args mode in
  fst r = false ∧
  responses (client (snd r)) = responses (client st) ++ [ErrorResponse (Some reason)] ∧
  calls (snd r) = calls st.
Proof.
  intros Hnm Hget Hmode Himm Hpoison r. subst r.
  assert (Hl : lookup st args None mode = (Some d, None)).
  { rewrite (lookup_named _ _ _ _ nm), Hget by done.
    destruct Hmode as [->|Hm]; [done|].
    apply Z.eqb_neq in Hm. rewrite Hm. by rewrite andb_false_r. }
  rewrite (dispatch_poisoned _ _ _ _ _ Hl).
  - rewrite Hpoison. by destruct (dispatch_done_after_error st args (Some reason)) as (? & ? & ? & _).
  - unfold poison_blocks. rewrite Hpoison, Himm.
    by rewrite bool_decide_eq_true_2 by eauto.
Qed.

(** C6. When the definition of a command is found and the mode is not 0, the
    flags of the definition must share a bit with the mode: if they do not,
    lookup fails with the mode error, and dispatch answers with it, returns
    [false] and invokes no handler; if they do, lookup returns the
    definition. *)
Theorem mode_mismatch_rejected st args mode nm d :
  command_name args = Some nm →
  w_ht_get (command_funcs st) nm = Some d →
  mode ≠ 0 →
  let r := dispatch_command cfg_get_double sample_finish st args mode in
  (Z.land (flags d) mode = 0 →
   lookup st args None mode
     = (None, Some ("command " +:+ nm +:+ " not available in this mode")) ∧
   fst r = false ∧
   responses (client (snd r))
     = responses (client st)
         ++ [ErrorResponse (Some ("command " +:+ nm +:+ " not available in this mode"))] ∧
   calls (snd r) = calls st) ∧
  (Z.land (flags d) mode ≠ 0 → lookup st args None mode = (Some d, None)).
Proof.
  intros Hnm Hget Hmode r. subst r.
  apply Z.eqb_neq in Hmode.
  split; intros Hland.
  - assert (Hl : lookup st args None mode
                 = (None, Some ("command " +:+ nm +:+ " not available in this mode"))).
    { rewrite (lookup_named _ _ _ _ nm), Hget by done. by rewrite Hmode, Hland. }
    split; [done|]. rewrite (dispatch_not_found _ _ _ _ Hl).
    by destruct (dispatch_done_after_error st args
                   (Some ("command " +:+ nm +:+ " not available in this mode")))
      as (? & ? & ? & _).
  - rewrite (lookup_named _ _ _ _ nm), Hget by done.
    apply Z.eqb_neq in Hland. rewrite Hland. by rewrite andb_false_r.
Qed.

(** An unknown command in mode 0: [lookup] leaves [errmsg] NULL and
    [dispatch_command] passes it to [send_error_response] all the same. *)
Lemma dispatch_unknown_tolerant st args nm :
  command_name args = Some nm →
  w_ht_get (command_funcs st) nm = None →
  let r := dispatch st args 0 in
  fst r = false ∧
  responses (client (snd r)) = responses (client st) ++ [ErrorResponse None] ∧
  calls (snd r) = calls st.
Proof.
  intros Hnm Hget r. subst r.
  assert (Hl : lookup st args None 0 = (None, None)).
  { by rewrite (lookup_named _ _ _ _ nm), Hget. }
  rewrite (dispatch_not_found _ _ _ _ Hl).
  by destruct (dispatch_done_after_error st args None) as (? & ? & ? & _).
Qed.

(** On the permission-denied path the client keeps its reference to the
    arguments, counted, and [perf_sample] is left as it was. *)
Lemma dispatch_denied_keeps_reference st args mode d errmsg :
  lookup st args None mode = (Some d, errmsg) →
  poison_blocks st d = false →
  owner_blocks st d = true →
  let r := dispatch st args mode in
  fst r = false ∧
  current_command (client (snd r)) = Some args ∧
  args_refcount (snd r) = args_refcount st + 1 ∧
  perf_sample (client (snd r)) = perf_sample (client st).
Proof. intros Hl Hp Ho r. subst r. by rewrite (dispatch_denied _ _ _ _ _ Hl Hp Ho). Qed.

(** On every other path both fields are cleared on return. *)
Lemma dispatch_clears_unless_denied st args mode :
  (∀ d, fst (lookup st args None mode) = Some d →
        poison_blocks st d = true ∨ owner_blocks st d = false) →
  let r := dispatch st args mode in
  current_command (client (snd r)) = None ∧ perf_sample (client (snd r)) = None.
Proof.
  intros H r. subst r. rewrite dispatch_command_eq.
  destruct (lookup st args None mode) as [[d|] errmsg]; [|done].
  destruct (poison_blocks st d) eqn:Hp; [done|].
  destruct (H d eq_refl) as [?|Ho]; [congruence|]. rewrite Ho.
  split; reflexivity.
Qed.

End DispatchPaths.

(** ** Dispatch on sample calls *)

Lemma poison_reported_before_ownership_witness :
  fst (dispatch_command cfg_defaults never_slow poisoned_daemon
         (JArray [JString "shutdown-server"]) CMD_DAEMON) = false ∧
  responses (client (snd (dispatch_command cfg_defaults never_slow poisoned_daemon
                            (JArray [JString "shutdown-server"]) CMD_DAEMON)))
    = responses (client poisoned_daemon) ++ [ErrorResponse (Some "disk full")] ∧
  calls (snd (dispatch_command cfg_defaults never_slow poisoned_daemon
                (JArray [JString "shutdown-server"]) CMD_DAEMON))
    = calls poisoned_daemon.
Proof.
  apply (poison_reported_before_ownership cfg_defaults never_slow poisoned_daemon
           (JArray [JString "shutdown-server"]) CMD_DAEMON "shutdown-server"
           cmd_shutdown_server "disk full").
  - reflexivity.
  - reflexivity.
  - right. vm_compute. discriminate.
  - reflexivity.
  - reflexivity.
Defined.

Lemma mode_mismatch_rejected_witness :
  lookup guarded_daemon (JArray [JString "shutdown-server"]) None CMD_CLIENT
    = (None, Some "command shutdown-server not available in this mode") ∧
  fst (dispatch_command cfg_defaults never_slow guarded_daemon
         (JArray [JString "shutdown-server"]) CMD_CLIENT) = false ∧
  responses (client (snd (dispatch_command cfg_defaults never_slow guarded_daemon
                            (JArray [JString "shutdown-server"]) CMD_CLIENT)))
    = responses (client guarded_daemon)
        ++ [ErrorResponse (Some "command shutdown-server not available in this mode")] ∧
  calls (snd (dispatch_command cfg_defaults never_slow guarded_daemon
                (JArray [JString "shutdown-server"]) CMD_CLIENT))
    = calls guarded_daemon.
Proof.
  apply (proj1 (mode_mismatch_rejected cfg_defaults never_slow guarded_daemon
                  (JArray [JString "shutdown-server"]) CMD_CLIENT "shutdown-server"
                  cmd_shutdown_server eq_refl eq_refl ltac:(vm_compute; discriminate))).
  reflexivity.
Defined.

(** C2, on the code.  A client that is not the owner asks for a command that
    is not open to any user: [dispatch_command] returns [false] from the
    ownership test without passing through the label [done], and on return the
    client still holds the argument array as its current command, with the
    reference counted. *)
Theorem permission_denied_keeps_current_command :
  fst (dispatch_command cfg_defaults never_slow guarded_daemon
         (JArray [JString "shutdown-server"]) CMD_DAEMON) = false ∧
  responses (client (snd (dispatch_command cfg_defaults never_slow guarded_daemon
                            (JArray [JString "shutdown-server"]) CMD_DAEMON)))
    = [ErrorResponse (Some "you must be the process owner to execute 'shutdown-server'")] ∧
  current_command (client (snd (dispatch_command cfg_defaults never_slow guarded_daemon
                                  (JArray [JString "shutdown-server"]) CMD_DAEMON)))
    = Some (JArray [JString "shutdown-server"]) ∧
  args_refcount (snd (dispatch_command cfg_defaults never_slow guarded_daemon
                        (JArray [JString "shutdown-server"]) CMD_DAEMON))
    = args_refcount guarded_daemon + 1.
Proof. vm_compute. repeat split. Qed.

(** C3, on the code.  A command that is not registered, dispatched in mode 0:
    [dispatch_command] returns [false] and invokes no handler, and it calls
    [send_error_response] with the NULL message that [lookup] left, so the
    session is sent an error response. *)
Theorem unknown_command_mode_0_sends_error :
  fst (dispatch_command cfg_defaults never_slow guarded_daemon (JArray [JString "nope"]) 0)
    = false ∧
  calls (snd (dispatch_command cfg_defaults never_slow guarded_daemon
                (JArray [JString "nope"]) 0)) = [] ∧
  responses (client guarded_daemon) = [] ∧
  responses (client (snd (dispatch_command cfg_defaults never_slow guarded_daemon
                            (JArray [JString "nope"]) 0)))
    = [ErrorResponse None].
Proof. vm_compute. repeat split. Qed.

(** Each rejection of the specification arises on a sample call. *)
Example spec_rejection_samples :
  spec_rejection guarded_daemon (JArray []) CMD_DAEMON = Some MalformedCommand ∧
  spec_rejection guarded_daemon (JArray [JInteger 1]) CMD_DAEMON = Some MalformedCommand ∧
  spec_rejection guarded_daemon (JArray [JString "nope"]) CMD_DAEMON = Some UnknownCommand ∧
  spec_rejection guarded_daemon (JArray [JString "nope"]) 0 = None ∧
  spec_rejection guarded_daemon (JArray [JString "shutdown-server"]) CMD_CLIENT
    = Some ModeViolation ∧
  spec_rejection poisoned_daemon (JArray [JString "shutdown-server"]) CMD_DAEMON
    = Some (Poisoned "disk full") ∧
  spec_rejection guarded_daemon (JArray [JString "shutdown-server"]) CMD_DAEMON
    = Some PermissionDenied.
Proof. vm_compute. repeat split. Qed.

(** The end-to-end scenario of the specification: "find", open to any user,
    dispatched for the owner with a path, reaches its handler with the whole
    argument array. *)
Example dispatch_find_reaches_handler :
  let r := dispatch_command cfg_defaults never_slow
             (w_register_command cmd_find (initial_state owner_client))
             (JArray [JString "find"; JString "/tmp"]) CMD_DAEMON in
  fst r = true ∧
  calls (snd r) = [("find", JArray [JString "find"; JString "/tmp"])] ∧
  responses (client (snd r)) = [Response (JArray [JString "find"; JString "/tmp"])] ∧
  current_command (client (snd r)) = None ∧
  perf_sample (client (snd r)) = None.
Proof. vm_compute. repeat split. Qed.

(** ** Preprocessing *)

(** C5, as stated, fails: in mode 0 [lookup] still rejects a malformed
    argument array, so [preprocess_command] writes an error and exits although
    no definition was found and no validator ran. *)
Lemma preprocess_malformed_exits_without_validator :
  preprocess_command "4.9.0" guarded_daemon (JArray []) is_json_compact
    = Exited 1 is_json_compact
        (JObject [("error", JString "invalid command (expected an array with some elements!)");
                  ("version", JString "4.9.0");
                  ("cli_validated", JTrue)]) ∧
  fst (lookup guarded_daemon (JArray []) None 0) = None.
Proof. split; reflexivity. Qed.

(** C5, amended.  [preprocess_command] looks the command up in mode 0, and a
    command that is not registered makes it return.  It writes the error
    envelope to the standard output in the encoding asked for and exits with
    code 1 if and only if an error message was produced, and it returns
    otherwise; in mode 0 the message is either one of the two that [lookup]
    gives for a malformed argument array, or the one that the validator of the
    definition found gives. *)
Theorem preprocess_exits_iff_error (PACKAGE_VERSION : string) (st : state) (args : json_t)
    (output_pdu : w_pdu_type) :
  let r := preprocess_command PACKAGE_VERSION st args output_pdu in
  let envelope m := JObject [("error", JString m); ("version", JString PACKAGE_VERSION);
                             ("cli_validated", JTrue)] in
  (∀ nm, command_name args = Some nm → w_ht_get (command_funcs st) nm = None → r = Returned) ∧
  (∀ m, r = Exited 1 output_pdu (envelope m) ↔
        (json_array_size args = O ∧
         m = "invalid command (expected an array with some elements!)") ∨
        (json_array_size args ≠ O ∧ json_string_value (json_array_get args 0) = None ∧
         m = "invalid command: expected element 0 to be the command name") ∨
        (∃ nm d validate, command_name args = Some nm ∧
                          w_ht_get (command_funcs st) nm = Some d ∧
                          cli_validate d = Some validate ∧ validate args = Some m)) ∧
  (r = Returned ∨ ∃ m, r = Exited 1 output_pdu (envelope m)).
Proof.
  intros r envelope. subst r. unfold preprocess_command.
  destruct (command_name args) as [nm|] eqn:Hnm.
  - rewrite (lookup_named _ _ _ _ nm) by done. simpl.
    assert (Hsize : json_array_size args ≠ O).
    { unfold command_name in Hnm. by case_decide. }
    assert (Hstr : json_string_value (json_array_get args 0) = Some nm).
    { unfold command_name in Hnm. by case_decide. }
    destruct (w_ht_get (command_funcs st) nm) as [d|] eqn:Hget.
    + destruct (cli_validate d) as [validate|] eqn:Hv.
      * destruct (validate args) as [m'|] eqn:Hm.
        -- split; [first [done | intros ? [= <-] ?; congruence]|]. split; [|right; by exists m'].
           intros m. split.
           ++ intros [= <-]. right. right. by exists nm, d, validate.
           ++ intros [[? _]|[(_ & ? & _)|(nm' & d' & v' & [= <-] & ? & ? & ?)]]; [done|congruence|].
              by simplify_eq.
        -- split; [first [done | intros ? [= <-] ?; congruence]|]. split; [|by left].
           intros m. split; [done|].
           intros [[? _]|[(_ & ? & _)|(nm' & d' & v' & [= <-] & ? & ? & ?)]]; [done|congruence|].
           by simplify_eq.
      * split; [first [done | intros ? [= <-] ?; congruence]|]. split; [|by left].
        intros m. split; [done|].
        intros [[? _]|[(_ & ? & _)|(nm' & d' & v' & [= <-] & ? & ? & ?)]]; [done|congruence|].
        simplify_eq.
    + split; [first [done | intros ? [= <-] ?; congruence]|]. split; [|by left].
      intros m. split; [done|].
      intros [[? _]|[(_ & ? & _)|(nm' & d' & v' & [= <-] & ? & _)]]; [done|congruence|].
      simplify_eq.
  - split; [done|]. unfold lookup. unfold command_name in Hnm.
    case_decide as Hsize.
    + split; [|right; by eexists].
      intros m. split.
      * intros [= <-]. by left.
      * intros [[_ ->]|[(? & _)|(? & ? & ? & ? & _)]]; done.
    + rewrite Hnm. split; [|right; by eexists].
      intros m. split.
      * intros [= <-]. right. by left.
      * intros [[? _]|[(_ & _ & ->)|(? & ? & ? & ? & _)]]; done.
Qed.

(** A validator that refuses: "find" without a path. *)
Example preprocess_find_without_path :
  preprocess_command "4.9.0" (w_register_command cmd_find (initial_state owner_client))
                     (JArray [JString "find"]) is_bser
    = Exited 1 is_bser
        (JObject [("error", JString "wrong number of arguments");
                  ("version", JString "4.9.0");
                  ("cli_validated", JTrue)]).
Proof. reflexivity. Qed.

(** * Further properties of the code *)

(** ** Registration *)

Lemma w_register_command_eq d st :
  w_register_command d st =
  mk_state (Some (<[name d := d]> (default ∅ (command_funcs st))))
           (Some (<[snprintf 128 ("cmd-" +:+ name d) := true]> (default ∅ (capabilities st))))
           (poisoned_reason st) (client st) (args_refcount st) (calls st) (log st).
Proof. reflexivity. Qed.

Lemma w_capability_register_eq cap st :
  w_capability_register cap st =
  mk_state (command_funcs st) (Some (<[cap := true]> (default ∅ (capabilities st))))
           (poisoned_reason st) (client st) (args_refcount st) (calls st) (log st).
Proof. reflexivity. Qed.

(** X1. After two commands of distinct names have been registered, in either
    order, each name finds its own definition and the capability of each
    command is supported; and the two orders cannot be told apart by any lookup
    in the command table or by any query of a capability. *)
Theorem register_command_commutes (d1 d2 : watchman_command_handler_def) (st : state) :
  name d1 ≠ name d2 →
  let st12 := w_register_command d2 (w_register_command d1 st) in
  let st21 := w_register_command d1 (w_register_command d2 st) in
  w_ht_get (command_funcs st12) (name d1) = Some d1 ∧
  w_ht_get (command_funcs st12) (name d2) = Some d2 ∧
  w_capability_supported (snprintf 128 ("cmd-" +:+ name d1)) st12 = true ∧
  w_capability_supported (snprintf 128 ("cmd-" +:+ name d2)) st12 = true ∧
  (∀ n, w_ht_get (command_funcs st12) n = w_ht_get (command_funcs st21) n) ∧
  (∀ cap, w_capability_supported cap st12 = w_capability_supported cap st21).
Proof.
  intros Hne st12 st21. subst st12 st21.
  repeat split.
  - rewrite !command_funcs_register. rewrite decide_False by congruence.
    by rewrite decide_True.
  - rewrite !command_funcs_register. by rewrite decide_True.
  - rewrite !supported_register. case_decide; [done|]. by rewrite decide_True.
  - rewrite !supported_register. by rewrite decide_True.
  - intros n. rewrite !command_funcs_register. repeat case_decide; congruence.
  - intros cap. rewrite !supported_register. by repeat case_decide.
Qed.

Lemma register_command_commutes_witness :
  w_ht_get (command_funcs (w_register_command cmd_get_pid
                             (w_register_command cmd_find (initial_state owner_client))))
           (name cmd_find) = Some cmd_find ∧
  w_ht_get (command_funcs (w_register_command cmd_get_pid
                             (w_register_command cmd_find (initial_state owner_client))))
           (name cmd_get_pid) = Some cmd_get_pid ∧
  w_capability_supported (snprintf 128 ("cmd-" +:+ name cmd_find))
    (w_register_command cmd_get_pid (w_register_command cmd_find (initial_state owner_client)))
    = true ∧
  w_capability_supported (snprintf 128 ("cmd-" +:+ name cmd_get_pid))
    (w_register_command cmd_get_pid (w_register_command cmd_find (initial_state owner_client)))
    = true ∧
  (∀ n, w_ht_get (command_funcs (w_register_command cmd_get_pid
                                   (w_register_command cmd_find (initial_state owner_client)))) n
        = w_ht_get (command_funcs (w_register_command cmd_find
                                     (w_register_command cmd_get_pid
                                        (initial_state owner_client)))) n) ∧
  (∀ cap, w_capability_supported cap
            (w_register_command cmd_get_pid
               (w_register_command cmd_find (initial_state owner_client)))
          = w_capability_supported cap
              (w_register_command cmd_find
                 (w_register_command cmd_get_pid (initial_state owner_client)))).
Proof.
  apply (register_command_commutes cmd_find cmd_get_pid (initial_state owner_client)).
  simpl. discriminate.
Defined.

(** X2. Registering a definition a second time changes nothing. *)
Theorem register_command_idempotent (d : watchman_command_handler_def) (st : state) :
  w_register_command d (w_register_command d st) = w_register_command d st.
Proof.
  rewrite !w_register_command_eq. cbn [command_funcs capabilities poisoned_reason client
    args_refcount calls log from_option id].
  by rewrite !insert_insert_eq.
Qed.

(** X3. Registering a capability is a set insertion: the capability is
    supported afterwards, the support of every other capability and every entry
    of the command table are as before, and no query of a capability can tell a
    second registration from the first, or one order of two registrations from
    the other. *)
Theorem capability_register_set_insert (cap : string) (st : state) :
  w_capability_supported cap (w_capability_register cap st) = true ∧
  (∀ cap', cap' ≠ cap →
           w_capability_supported cap' (w_capability_register cap st)
           = w_capability_supported cap' st) ∧
  (∀ n, w_ht_get (command_funcs (w_capability_register cap st)) n
        = w_ht_get (command_funcs st) n) ∧
  (∀ cap', w_capability_supported cap' (w_capability_register cap (w_capability_register cap st))
           = w_capability_supported cap' (w_capability_register cap st)) ∧
  (∀ cap2 cap',
     w_capability_supported cap' (w_capability_register cap (w_capability_register cap2 st))
     = w_capability_supported cap' (w_capability_register cap2 (w_capability_register cap st))).
Proof.
  repeat split.
  - rewrite supported_register_capability. by rewrite decide_True.
  - intros cap' Hne. rewrite supported_register_capability. by rewrite decide_False.
  - intros cap'. rewrite !supported_register_capability. by case_decide.
  - intros cap2 cap'. rewrite !supported_register_capability. by repeat case_decide.
Qed.

Lemma capabilities_register d st cap :
  w_ht_get (capabilities (w_register_command d st)) cap =
  if decide (snprintf 128 ("cmd-" +:+ name d) = cap) then Some true
  else w_ht_get (capabilities st) cap.
Proof. rewrite w_register_command_eq. cbn [capabilities]. apply w_ht_get_set. Qed.

Lemma capabilities_register_capability cap' st cap :
  w_ht_get (capabilities (w_capability_register cap' st)) cap =
  if decide (cap' = cap) then Some true else w_ht_get (capabilities st) cap.
Proof. rewrite w_capability_register_eq. cbn [capabilities]. apply w_ht_get_set. Qed.

Lemma snprintf_length size out : (0 < size)%nat → (String.length (snprintf size out) < size)%nat.
Proof. intros H. unfold snprintf. pose proof (length_truncate (size - 1) out). lia. Qed.

(** X4. Registering a command adds one capability and no other: the first 127
    bytes of "cmd-" followed by the name of the command.  That capability is
    supported afterwards, and the support of every other capability is as
    before. *)
Theorem register_command_adds_one_capability (d : watchman_command_handler_def) (st : state) :
  let capname := snprintf 128 ("cmd-" +:+ name d) in
  capname = truncate 127 ("cmd-" +:+ name d) ∧
  (String.length capname <= 127)%nat ∧
  w_capability_supported capname (w_register_command d st) = true ∧
  (∀ cap, cap ≠ capname →
          w_capability_supported cap (w_register_command d st) = w_capability_supported cap st).
Proof.
  intros capname. subst capname. split; [done|]. split.
  { pose proof (snprintf_length 128 ("cmd-" +:+ name d)). lia. }
  split.
  - rewrite supported_register. by rewrite decide_True.
  - intros cap Hne. rewrite supported_register. by rewrite decide_False.
Qed.

(** Startup never takes a command or a capability away. *)
Lemma run_startup_op_grows st op :
  (∀ n, is_Some (w_ht_get (command_funcs st) n) →
        is_Some (w_ht_get (command_funcs (run_startup_op st op)) n)) ∧
  (∀ cap, w_capability_supported cap st = true →
          w_capability_supported cap (run_startup_op st op) = true).
Proof.
  destruct op as [d|cap']; cbn [run_startup_op]; split.
  - intros n H. rewrite command_funcs_register. case_decide; eauto.
  - intros cap H. rewrite supported_register. by case_decide.
  - intros n H. by rewrite command_funcs_register_capability.
  - intros cap H. rewrite supported_register_capability. by case_decide.
Qed.

Lemma startup_keeps_supported ops st cap :
  w_capability_supported cap st = true → w_capability_supported cap (startup ops st) = true.
Proof.
  unfold startup. revert st. induction ops as [|op ops IH]; intros st H; [done|].
  cbn [foldl]. apply IH. by apply run_startup_op_grows.
Qed.

(** X5. Commands and capabilities are only ever added: whatever is registered
    or supported before a sequence of registrations is so after it. *)
Theorem startup_only_grows (ops : list startup_op) (st : state) :
  (∀ n, is_Some (w_ht_get (command_funcs st) n) →
        is_Some (w_ht_get (command_funcs (startup ops st)) n)) ∧
  (∀ cap, w_capability_supported cap st = true →
          w_capability_supported cap (startup ops st) = true).
Proof.
  unfold startup. revert st. induction ops as [|op ops IH]; intros st; [done|].
  cbn [foldl]. destruct (IH (run_startup_op st op)) as [IHf IHc].
  destruct (run_startup_op_grows st op) as [Hf Hc]. split; eauto.
Qed.

(** What registration keeps. *)
Lemma keys_are_names_startup ops st :
  keys_are_names st → keys_are_names (startup ops st).
Proof.
  unfold startup. revert st. induction ops as [|op ops IH]; intros st Hinv; [done|].
  cbn [foldl]. apply IH. intros key d'. destruct op as [d|cap]; cbn [run_startup_op].
  - rewrite command_funcs_register. case_decide; [by intros [= <-] | apply Hinv].
  - rewrite command_funcs_register_capability. apply Hinv.
Qed.

Lemma capabilities_all_true_startup ops st :
  capabilities_all_true st → capabilities_all_true (startup ops st).
Proof.
  unfold startup. revert st. induction ops as [|op ops IH]; intros st Hinv; [done|].
  cbn [foldl]. apply IH. intros cap v. destruct op as [d|cap']; cbn [run_startup_op].
  - rewrite capabilities_register. case_decide; [by intros [= <-] | apply Hinv].
  - rewrite capabilities_register_capability. case_decide; [by intros [= <-] | apply Hinv].
Qed.

Lemma keys_are_names_initial c : keys_are_names (initial_state c).
Proof. by intros key d. Qed.

Lemma capabilities_all_true_initial c : capabilities_all_true (initial_state c).
Proof. by intros cap v. Qed.

(** ** The help list and the capability list *)

Lemma sorted_command_list_Permutation st :
  sorted_command_list st ≡ₚ w_ht_values (command_funcs st).
Proof. unfold sorted_command_list. case_decide; [apply qsort_Permutation | done]. Qed.

Lemma elem_of_w_ht_keys {V} (ht : w_ht_t V) key :
  key ∈ w_ht_keys ht ↔ is_Some (w_ht_get ht key).
Proof.
  destruct ht as [m|]; simpl.
  - rewrite list_elem_of_fmap. split.
    + intros ([key' v] & -> & H%elem_of_map_to_list). by exists v.
    + intros [v H]. exists (key, v). by rewrite elem_of_map_to_list.
  - split; [by intros ?%elem_of_nil | by intros [? ?]].
Qed.

Lemma NoDup_w_ht_keys {V} (ht : w_ht_t V) : NoDup (w_ht_keys ht).
Proof. destruct ht as [m|]; simpl; [apply NoDup_fst_map_to_list | constructor]. Qed.

Lemma length_w_ht_keys {V} (ht : w_ht_t V) : length (w_ht_keys ht) = w_ht_size ht.
Proof.
  destruct ht as [m|]; simpl; [|done].
  by rewrite length_fmap, length_map_to_list.
Qed.

Lemma length_w_ht_values {V} (ht : w_ht_t V) : length (w_ht_values ht) = w_ht_size ht.
Proof.
  destruct ht as [m|]; simpl; [|done].
  by rewrite length_fmap, length_map_to_list.
Qed.

(** When every definition is stored under its name, the names of the values
    are the keys. *)
Lemma names_of_values st :
  keys_are_names st → name <$> w_ht_values (command_funcs st) = w_ht_keys (command_funcs st).
Proof.
  intros Hinv. unfold keys_are_names in Hinv.
  destruct (command_funcs st) as [m|]; simpl in *; [|done].
  rewrite <- list_fmap_compose. apply Forall_fmap_ext, Forall_forall.
  intros [key d] H%elem_of_map_to_list. simpl. by apply Hinv.
Qed.

(** X6. After any sequence of registrations the help list names each
    registered command once: its names are pairwise distinct, a name is listed
    if and only if a command of that name was registered, and the list is as
    long as the table is large. *)
Theorem help_list_names_once (c : watchman_client) (ops : list startup_op) :
  let st := startup ops (initial_state c) in
  NoDup (name <$> sorted_command_list st) ∧
  (∀ n, n ∈ name <$> sorted_command_list st ↔ ∃ d, RegisterCommand d ∈ ops ∧ name d = n) ∧
  length (sorted_command_list st) = w_ht_size (command_funcs st).
Proof.
  intros st.
  assert (Hnames : name <$> sorted_command_list st ≡ₚ w_ht_keys (command_funcs st)).
  { rewrite sorted_command_list_Permutation, names_of_values; [done|].
    apply keys_are_names_startup, keys_are_names_initial. }
  split; [|split].
  - rewrite Hnames. apply NoDup_w_ht_keys.
  - intros n. rewrite Hnames, elem_of_w_ht_keys. subst st. rewrite startup_registered.
    split; [|auto]. intros [[? H]|H]; [done | exact H].
  - by rewrite sorted_command_list_Permutation, length_w_ht_values.
Qed.

Lemma foldl_json_array_append acc keys :
  foldl (λ arr key, json_array_append arr (w_string_to_json key)) (JArray acc) keys
  = JArray (acc ++ (JString <$> keys)).
Proof.
  revert acc. induction keys as [|key keys IH]; intros acc; simpl.
  - by rewrite app_nil_r.
  - rewrite IH. by rewrite <- app_assoc.
Qed.

Lemma supported_iff_key st cap :
  capabilities_all_true st →
  w_capability_supported cap st = true ↔ cap ∈ w_ht_keys (capabilities st).
Proof.
  intros Hinv. rewrite elem_of_w_ht_keys. unfold w_capability_supported. split.
  - destruct (w_ht_get (capabilities st) cap); [eauto | done].
  - intros [v Hv]. rewrite Hv. simpl. by apply (Hinv cap).
Qed.

(** X7. Once at least one registration has been made, the capability list is
    an array of strings that names every supported capability once and nothing
    else, and holds as many elements as the table. *)
Theorem capability_list_is_supported_set (c : watchman_client) (op : startup_op)
    (ops : list startup_op) :
  let st := startup (op :: ops) (initial_state c) in
  ∃ caps, w_capability_get_list st = Some (JArray (JString <$> caps)) ∧
          NoDup caps ∧
          length caps = w_ht_size (capabilities st) ∧
          ∀ cap, cap ∈ caps ↔ w_capability_supported cap st = true.
Proof.
  intros st.
  assert (Hinv : capabilities_all_true st).
  { apply capabilities_all_true_startup, capabilities_all_true_initial. }
  assert (Hsome : ∃ cap, cap ∈ w_ht_keys (capabilities st)).
  { assert (∃ cap, w_capability_supported cap (run_startup_op (initial_state c) op) = true)
      as [cap Hcap].
    { destruct op as [d|cap]; cbn [run_startup_op].
      - exists (snprintf 128 ("cmd-" +:+ name d)). rewrite supported_register.
        by rewrite decide_True.
      - exists cap. rewrite supported_register_capability. by rewrite decide_True. }
    exists cap. apply supported_iff_key; [done|].
    by apply (startup_keeps_supported ops (run_startup_op (initial_state c) op)). }
  exists (w_ht_keys (capabilities st)). split; [|split; [|split]].
  - unfold w_capability_get_list, json_array_of_size.
    destruct (w_ht_keys (capabilities st)) as [|key keys] eqn:Hkeys.
    + destruct Hsome as [cap Hcap]. by apply elem_of_nil in Hcap.
    + by rewrite foldl_json_array_append.
  - apply NoDup_w_ht_keys.
  - apply length_w_ht_keys.
  - intros cap. by rewrite supported_iff_key.
Qed.

(** With no capability registered, the loop of [w_capability_get_list] has
    nothing defined to read. *)
Example capability_list_empty_table (c : watchman_client) :
  w_capability_get_list (initial_state c) = None.
Proof. reflexivity. Qed.

(** ** The order of [compare_def] *)

Lemma strcmp_eq_0 a b :
  nul_free a = true → nul_free b = true → strcmp a b = 0 ↔ a = b.
Proof.
  intros Ha Hb. split; [|intros ->; apply strcmp_refl].
  intros H. apply String.compare_eq_iff. rewrite <- strcmp_lexicographic by done.
  by rewrite H.
Qed.

(** X8. On names without a NUL byte (all that a C string can hold),
    [compare_def] has the sign of the lexicographic comparison of the names byte
    by byte, it is 0 only for equal names, and swapping its arguments negates
    it. *)
Theorem compare_def_lexicographic (a b : watchman_command_handler_def) :
  nul_free (name a) = true → nul_free (name b) = true →
  (compare_def a b ?= 0) = (name a ?= name b)%string ∧
  (compare_def a b = 0 ↔ name a = name b) ∧
  compare_def b a = - compare_def a b.
Proof.
  intros Ha Hb. unfold compare_def. split; [|split].
  - by apply strcmp_lexicographic.
  - by apply strcmp_eq_0.
  - apply strcmp_swap.
Qed.

Lemma compare_def_lexicographic_witness :
  (compare_def cmd_find cmd_get_pid ?= 0) = ("find" ?= "get-pid")%string ∧
  (compare_def cmd_find cmd_get_pid = 0 ↔ "find" = "get-pid") ∧
  compare_def cmd_get_pid cmd_find = - compare_def cmd_find cmd_get_pid.
Proof. apply (compare_def_lexicographic cmd_find cmd_get_pid); reflexivity. Defined.

(** ** More on dispatch *)

Section DispatchFurther.

Variable cfg_get_double : string → float → float.
Variable sample_finish : w_perf_t → bool.

#[local] Abbreviation dispatch' := (dispatch_command cfg_get_double sample_finish).

Implicit Types (st : state) (d : watchman_command_handler_def) (args : json_t) (mode : Z).

(** The sample that [dispatch_command] opens for [d]. *)
#[local] Abbreviation sample_of d :=
  (mk_perf (snprintf 128 ("dispatch_command:" +:+ name d))
           (Some (cfg_get_double "slow_command_log_threshold_seconds" 1%float)) []).

(** Replaces a pass through the label [done] by its result. *)
Ltac done_frame :=
  match goal with
  | |- context [dispatch_done ?s ?a ?r] =>
      let n := fresh "n" in destruct (dispatch_done_frame s a r) as [n ->]
  end.

Lemma dispatch_done_error_state st args msg :
  dispatch_done (send_error_response (dispatch_entry st args) msg) args false
  = (false, rejected_state st msg).
Proof.
  destruct st as [funcs caps poison [owner cur perf resps] refs cs lg].
  unfold dispatch_done, send_error_response, dispatch_entry, rejected_state,
    set_client, set_args_refcount, set_current_command, set_perf_sample.
  cbn [client current_command]. rewrite json_decref_args.
  unfold set_args_refcount. cbn. do 2 f_equal. lia.
Qed.

Lemma poison_blocks_false st d :
  poison_blocks st d = false ↔
  (poisoned_reason st = None ∨ Z.land (flags d) CMD_POISON_IMMUNE ≠ 0).
Proof.
  unfold poison_blocks. destruct (poisoned_reason st) as [reason|].
  - rewrite bool_decide_eq_true_2 by eauto. rewrite andb_true_l, Z.eqb_neq.
    split; [auto | by intros [?|?]].
  - rewrite bool_decide_eq_false_2 by (by intros [? ?]). split; auto.
Qed.

Lemma owner_blocks_false st d :
  owner_blocks st d = false ↔
  (client_is_owner (client st) = true ∨ Z.land (flags d) CMD_ALLOW_ANY_USER ≠ 0).
Proof.
  unfold owner_blocks. destruct (client_is_owner (client st)); simpl.
  - split; auto.
  - rewrite Z.eqb_neq. split; [auto | by intros [?|?]].
Qed.

Lemma lookup_Some st args mode d errmsg :
  lookup st args None mode = (Some d, errmsg) ↔
  errmsg = None ∧
  ∃ nm, command_name args = Some nm ∧ w_ht_get (command_funcs st) nm = Some d ∧
        (mode = 0 ∨ Z.land (flags d) mode ≠ 0).
Proof.
  split.
  - intros (nm & ? & ? & ? & ->)%lookup_found. eauto 10.
  - intros (-> & nm & Hnm & Hget & Hmode).
    rewrite (lookup_named _ _ _ _ nm), Hget by done.
    destruct Hmode as [->|Hm]; [done|].
    apply Z.eqb_neq in Hm. by rewrite Hm, andb_false_r.
Qed.

Lemma dispatch_accepts_iff st args mode d :
  dispatch_accepts st args mode d ↔
  lookup st args None mode = (Some d, None) ∧
  poison_blocks st d = false ∧ owner_blocks st d = false.
Proof.
  rewrite lookup_Some, poison_blocks_false, owner_blocks_false. unfold dispatch_accepts.
  split.
  - intros (nm & ? & ? & ? & ? & ?). eauto 10.
  - intros ((_ & nm & ? & ? & ?) & ? & ?). eauto 10.
Qed.

(** X9. An argument array without a command name (not an array, an empty
    array, or an array whose element 0 is not a string) is refused in every
    mode and whatever is registered: dispatch returns [false], and the state on
    return is the state on entry with one error response queued (the first
    message for an array without elements, the second otherwise) and the two
    transient fields of the client cleared; no handler is called, nothing is
    logged and the reference count of the arguments is as on entry. *)
Theorem dispatch_malformed st args mode :
  command_name args = None →
  dispatch_command cfg_get_double sample_finish st args mode =
  (false,
   rejected_state st
     (Some (if decide (json_array_size args = O)
            then "invalid command (expected an array with some elements!)"
            else "invalid command: expected element 0 to be the command name"))).
Proof.
  intros Hnm.
  rewrite (dispatch_not_found _ _ st args mode
             (Some (if decide (json_array_size args = O)
                    then "invalid command (expected an array with some elements!)"
                    else "invalid command: expected element 0 to be the command name"))).
  - apply dispatch_done_error_state.
  - unfold lookup. unfold command_name in Hnm. case_decide; [done|]. by rewrite Hnm.
Qed.

(** X10. A command name that is not registered, dispatched in a mode other
    than 0, is answered with "unknown command" and the name: dispatch returns
    [false] and the state on return is the state on entry with that one error
    response queued and the two transient fields of the client cleared. *)
Theorem dispatch_unknown_strict st args mode nm :
  command_name args = Some nm →
  w_ht_get (command_funcs st) nm = None →
  mode ≠ 0 →
  dispatch_command cfg_get_double sample_finish st args mode =
  (false, rejected_state st (Some ("unknown command " +:+ nm))).
Proof.
  intros Hnm Hget Hmode.
  rewrite (dispatch_not_found _ _ st args mode (Some ("unknown command " +:+ nm))).
  - apply dispatch_done_error_state.
  - rewrite (lookup_named _ _ _ _ nm), Hget by done.
    apply Z.eqb_neq in Hmode. by rewrite Hmode.
Qed.

(** X11. Dispatch returns [true] exactly when element 0 of the arguments names
    a registered command whose flags share a bit with the mode (or the mode is
    0), the daemon is not poisoned or the command is immune to poison, and the
    client is the owner or the command is open to any user. *)
Theorem dispatch_runs_iff st args mode :
  fst (dispatch_command cfg_get_double sample_finish st args mode) = true ↔
  ∃ d, dispatch_accepts st args mode d.
Proof.
  split.
  - destruct (dispatch_calls cfg_get_double sample_finish st args mode)
      as [[Hf _]|(d & errmsg & Hl & Hp & Ho & _)].
    + rewrite Hf. discriminate.
    + intros _. exists d. apply dispatch_accepts_iff.
      pose proof Hl as (-> & _)%lookup_Some. done.
  - intros [d (Hl & Hp & Ho)%dispatch_accepts_iff].
    by rewrite (dispatch_executed _ _ _ _ _ _ _ Hl Hp Ho).
Qed.

(** X12. A client that is not the owner, asking for a registered command that
    is not open to any user (the mode test and the poison test passed), is
    answered "you must be the process owner to execute" with the name of the
    definition: dispatch returns [false], calls no handler and logs nothing. *)
Theorem permission_denied_response st args mode nm d :
  command_name args = Some nm →
  w_ht_get (command_funcs st) nm = Some d →
  mode = 0 ∨ Z.land (flags d) mode ≠ 0 →
  poisoned_reason st = None ∨ Z.land (flags d) CMD_POISON_IMMUNE ≠ 0 →
  client_is_owner (client st) = false →
  Z.land (flags d) CMD_ALLOW_ANY_USER = 0 →
  let r := dispatch_command cfg_get_double sample_finish st args mode in
  fst r = false ∧
  responses (client (snd r))
    = responses (client st)
        ++ [ErrorResponse (Some ("you must be the process owner to execute '"
                                 +:+ name d +:+ "'"))] ∧
  calls (snd r) = calls st ∧
  log (snd r) = log st.
Proof.
  intros Hnm Hget Hmode Hpoison Howner Hany r. subst r.
  assert (Hl : lookup st args None mode = (Some d, None)).
  { apply lookup_Some. eauto 10. }
  rewrite (dispatch_denied _ _ _ _ _ _ _ Hl); [done| |].
  - by apply poison_blocks_false.
  - unfold owner_blocks. by rewrite Howner, Hany.
Qed.

(** X13. When dispatch lets a call through, the handler is called once, with
    the whole argument array and with a client whose current command is that
    array and whose performance sample is a fresh one, named
    "dispatch_command:" followed by the name of the command (127 bytes at
    most) and given the configured threshold (1 second by default).  Whatever
    the handler does to the client, the two transient fields are cleared when
    dispatch returns. *)
Theorem handler_sees_command_and_sample st args mode d :
  dispatch_accepts st args mode d →
  let r := dispatch_command cfg_get_double sample_finish st args mode in
  let sample :=
    mk_perf (snprintf 128 ("dispatch_command:" +:+ name d))
            (Some (cfg_get_double "slow_command_log_threshold_seconds" 1%float)) [] in
  client (snd r)
    = set_perf_sample
        (set_current_command
           (func d (mk_client (client_is_owner (client st)) (Some args) (Some sample)
                              (responses (client st))) args)
           None)
        None ∧
  calls (snd r) = calls st ++ [(name d, args)] ∧
  (String.length (description sample) <= 127)%nat.
Proof.
  intros (Hl & Hp & Ho)%dispatch_accepts_iff r sample. subst r.
  rewrite (dispatch_executed _ _ _ _ _ _ _ Hl Hp Ho).
  destruct (dispatch_done_frame
              (dispatch_execute cfg_get_double sample_finish (dispatch_entry st args) d args)
              args true) as [n ->].
  split; [|split].
  - cbn [snd client]. by rewrite execute_client.
  - cbn [snd calls]. by rewrite execute_calls.
  - pose proof (snprintf_length 128 ("dispatch_command:" +:+ name d)).
    subst sample. cbn [description]. lia.
Qed.

(** What the sample scope logs. *)
Lemma execute_log st d args :
  log (dispatch_execute cfg_get_double sample_finish st d args) =
  log st ++ [LogDbg ("dispatch_command: " +:+ name d +:+ newline);
             let sample :=
               default (sample_of d)
                       (perf_sample (func d (set_perf_sample (client st) (Some (sample_of d)))
                                          args)) in
             if sample_finish sample
             then PerfLog (add_meta sample "args" args)
             else LogDbg ("dispatch_command: " +:+ name d +:+ " (completed)" +:+ newline)].
Proof.
  unfold dispatch_execute. cbn [client set_client add_call add_log].
  destruct (sample_finish _); [rewrite json_incref_args|]; cbn; by rewrite <- app_assoc.
Qed.

(** X14. For a call that reaches the handler, dispatch writes to the log the
    name of the command before the handler runs and, after it, either the sample
    (when the sample, as the handler left it through the pointer in the client,
    ran past its threshold) with the argument array added at the end of its
    metadata under "args", or a completion line and no sample. *)
Theorem dispatch_log st args mode d sample :
  dispatch_accepts st args mode d →
  perf_sample
    (func d (mk_client (client_is_owner (client st)) (Some args)
                       (Some (mk_perf (snprintf 128 ("dispatch_command:" +:+ name d))
                                      (Some (cfg_get_double "slow_command_log_threshold_seconds"
                                                            1%float)) []))
                       (responses (client st))) args)
    = Some sample →
  log (snd (dispatch_command cfg_get_double sample_finish st args mode)) =
  log st ++ [LogDbg ("dispatch_command: " +:+ name d +:+ newline);
             if sample_finish sample
             then PerfLog (mk_perf (description sample) (wall_time_thresh sample)
                                   (meta_data sample ++ [("args", args)]))
             else LogDbg ("dispatch_command: " +:+ name d +:+ " (completed)" +:+ newline)].
Proof.
  intros (Hl & Hp & Ho)%dispatch_accepts_iff Hsample.
  rewrite (dispatch_executed _ _ _ _ _ _ _ Hl Hp Ho).
  destruct (dispatch_done_frame
              (dispatch_execute cfg_get_double sample_finish (dispatch_entry st args) d args)
              args true) as [n ->].
  cbn [snd log]. rewrite execute_log.
  change (set_perf_sample (client (dispatch_entry st args)) (Some (sample_of d)))
    with (mk_client (client_is_owner (client st)) (Some args) (Some (sample_of d))
                    (responses (client st))).
  by rewrite Hsample.
Qed.

Lemma execute_refcount st d args :
  args_refcount (dispatch_execute cfg_get_double sample_finish st d args) =
  args_refcount st +
  (if sample_finish
        (default (sample_of d)
                 (perf_sample (func d (set_perf_sample (client st) (Some (sample_of d))) args)))
   then 1 else 0).
Proof.
  unfold dispatch_execute. cbn [client set_client add_call add_log].
  destruct (sample_finish _); [rewrite json_incref_args|]; cbn; lia.
Qed.

(** X15. For a call that reaches the handler and whose sample does not run
    past its threshold, the reference operations of dispatch on the argument
    array cancel out when the handler leaves the current command of the client
    pointing to the array: the count on return is the count on entry.  When the
    handler leaves the pointer NULL or pointing to another value, the reference
    taken on entry is not given back: the count on return is one higher. *)
Theorem dispatch_reference_balance st args mode d :
  dispatch_accepts st args mode d →
  sample_finish
    (default (mk_perf (snprintf 128 ("dispatch_command:" +:+ name d))
                      (Some (cfg_get_double "slow_command_log_threshold_seconds" 1%float)) [])
             (perf_sample
                (func d (mk_client (client_is_owner (client st)) (Some args)
                                   (Some (mk_perf (snprintf 128 ("dispatch_command:" +:+ name d))
                                                  (Some (cfg_get_double
                                                           "slow_command_log_threshold_seconds"
                                                           1%float)) []))
                                   (responses (client st))) args))) = false →
  args_refcount (snd (dispatch_command cfg_get_double sample_finish st args mode)) =
  if decide (current_command
               (func d (mk_client (client_is_owner (client st)) (Some args)
                                  (Some (mk_perf (snprintf 128 ("dispatch_command:" +:+ name d))
                                                 (Some (cfg_get_double
                                                          "slow_command_log_threshold_seconds"
                                                          1%float)) []))
                                  (responses (client st))) args) = Some args)
  then args_refcount st
  else args_refcount st + 1.
Proof.
  intros (Hl & Hp & Ho)%dispatch_accepts_iff Hfast.
  rewrite (dispatch_executed _ _ _ _ _ _ _ Hl Hp Ho).
  assert (Hc : client (dispatch_execute cfg_get_double sample_finish
                         (dispatch_entry st args) d args)
               = func d (mk_client (client_is_owner (client st)) (Some args)
                                   (Some (sample_of d)) (responses (client st))) args)
    by (by rewrite execute_client).
  assert (Hr : args_refcount (dispatch_execute cfg_get_double sample_finish
                                (dispatch_entry st args) d args)
               = args_refcount st + 1).
  { rewrite execute_refcount.
    change (set_perf_sample (client (dispatch_entry st args)) (Some (sample_of d)))
      with (mk_client (client_is_owner (client st)) (Some args) (Some (sample_of d))
                      (responses (client st))).
    rewrite Hfast. cbn [dispatch_entry args_refcount set_args_refcount]. lia. }
  unfold dispatch_done. cbn [snd]. rewrite Hc.
  unfold json_decref.
  destruct (current_command _) as [j|]; [destruct (decide (j = args)) as [->|Hj]|].
  - rewrite decide_True by done. cbn [args_refcount set_client set_args_refcount]. lia.
  - rewrite decide_False by congruence. cbn [args_refcount set_client]. lia.
  - rewrite decide_False by done. cbn [args_refcount set_client]. lia.
Qed.

(** X16. Only element 0 of the argument array decides whether a command is
    run and which error is answered: two arrays that start with the same name
    get the same result and, when refused, the same responses. *)
Theorem dispatch_ignores_arguments st mode nm rest rest' :
  let r := dispatch_command cfg_get_double sample_finish st (JArray (JString nm :: rest)) mode in
  let r' := dispatch_command cfg_get_double sample_finish st (JArray (JString nm :: rest')) mode in
  fst r = fst r' ∧
  (fst r = false → responses (client (snd r)) = responses (client (snd r'))).
Proof.
  intros r r'. subst r r'. rewrite !dispatch_command_eq.
  assert (Hl : lookup st (JArray (JString nm :: rest)) None mode
               = lookup st (JArray (JString nm :: rest')) None mode) by reflexivity.
  rewrite Hl. destruct (lookup st (JArray (JString nm :: rest')) None mode) as [[d|] errmsg].
  - destruct (poison_blocks st d); [by do 2 done_frame|].
    destruct (owner_blocks st d); [done|]. do 2 done_frame. split; [done | discriminate].
  - by do 2 done_frame.
Qed.

End DispatchFurther.

Lemma dispatch_malformed_witness :
  dispatch_command cfg_defaults never_slow guarded_daemon (JArray [JInteger 7]) CMD_DAEMON =
  (false,
   rejected_state guarded_daemon
     (Some "invalid command: expected element 0 to be the command name")).
Proof.
  apply (dispatch_malformed cfg_defaults never_slow guarded_daemon (JArray [JInteger 7])
           CMD_DAEMON).
  reflexivity.
Defined.

Lemma dispatch_unknown_strict_witness :
  dispatch_command cfg_defaults never_slow guarded_daemon (JArray [JString "nope"]) CMD_DAEMON =
  (false, rejected_state guarded_daemon (Some "unknown command nope")).
Proof.
  apply (dispatch_unknown_strict cfg_defaults never_slow guarded_daemon
           (JArray [JString "nope"]) CMD_DAEMON "nope").
  - reflexivity.
  - reflexivity.
  - vm_compute. discriminate.
Defined.

Lemma permission_denied_response_witness :
  fst (dispatch_command cfg_defaults never_slow guarded_daemon
         (JArray [JString "shutdown-server"]) CMD_DAEMON) = false ∧
  responses (client (snd (dispatch_command cfg_defaults never_slow guarded_daemon
                            (JArray [JString "shutdown-server"]) CMD_DAEMON)))
    = responses (client guarded_daemon)
        ++ [ErrorResponse (Some "you must be the process owner to execute 'shutdown-server'")] ∧
  calls (snd (dispatch_command cfg_defaults never_slow guarded_daemon
                (JArray [JString "shutdown-server"]) CMD_DAEMON)) = calls guarded_daemon ∧
  log (snd (dispatch_command cfg_defaults never_slow guarded_daemon
              (JArray [JString "shutdown-server"]) CMD_DAEMON)) = log guarded_daemon.
Proof.
  apply (permission_denied_response cfg_defaults never_slow guarded_daemon
           (JArray [JString "shutdown-server"]) CMD_DAEMON "shutdown-server"
           cmd_shutdown_server).
  - reflexivity.
  - reflexivity.
  - right. vm_compute. discriminate.
  - left. reflexivity.
  - reflexivity.
  - reflexivity.
Defined.

(** "find" with a path, asked by the owner in daemon mode, is let through. *)
Lemma find_daemon_accepts :
  dispatch_accepts find_daemon (JArray [JString "find"; JString "/tmp"]) CMD_DAEMON cmd_find.
Proof.
  exists "find". split; [reflexivity|]. split; [reflexivity|].
  split; [right; vm_compute; discriminate|].
  split; left; reflexivity.
Defined.

Lemma handler_sees_command_and_sample_witness :
  client (snd (dispatch_command cfg_defaults never_slow find_daemon
                 (JArray [JString "find"; JString "/tmp"]) CMD_DAEMON))
    = set_perf_sample
        (set_current_command
           (func cmd_find
                 (mk_client (client_is_owner (client find_daemon))
                            (Some (JArray [JString "find"; JString "/tmp"]))
                            (Some (mk_perf (snprintf 128 ("dispatch_command:" +:+ name cmd_find))
                                           (Some (cfg_defaults
                                                    "slow_command_log_threshold_seconds"
                                                    1%float)) []))
                            (responses (client find_daemon)))
                 (JArray [JString "find"; JString "/tmp"]))
           None)
        None ∧
  calls (snd (dispatch_command cfg_defaults never_slow find_daemon
                (JArray [JString "find"; JString "/tmp"]) CMD_DAEMON))
    = calls find_daemon ++ [(name cmd_find, JArray [JString "find"; JString "/tmp"])] ∧
  (String.length
     (description (mk_perf (snprintf 128 ("dispatch_command:" +:+ name cmd_find))
                           (Some (cfg_defaults "slow_command_log_threshold_seconds" 1%float))
                           [])) <= 127)%nat.
Proof.
  apply (handler_sees_command_and_sample cfg_defaults never_slow find_daemon
           (JArray [JString "find"; JString "/tmp"]) CMD_DAEMON cmd_find).
  exact find_daemon_accepts.
Defined.

Lemma dispatch_reference_balance_witness :
  args_refcount (snd (dispatch_command cfg_defaults never_slow find_daemon
                        (JArray [JString "find"; JString "/tmp"]) CMD_DAEMON))
  = if decide (current_command
                 (func cmd_find
                       (mk_client (client_is_owner (client find_daemon))
                                  (Some (JArray [JString "find"; JString "/tmp"]))
                                  (Some (mk_perf (snprintf 128 ("dispatch_command:"
                                                                +:+ name cmd_find))
                                                 (Some (cfg_defaults
                                                          "slow_command_log_threshold_seconds"
                                                          1%float)) []))
                                  (responses (client find_daemon)))
                       (JArray [JString "find"; JString "/tmp"]))
               = Some (JArray [JString "find"; JString "/tmp"]))
    then args_refcount find_daemon
    else args_refcount find_daemon + 1.
Proof.
  apply (dispatch_reference_balance cfg_defaults never_slow find_daemon
           (JArray [JString "find"; JString "/tmp"]) CMD_DAEMON cmd_find).
  - exact find_daemon_accepts.
  - reflexivity.
Defined.

Lemma dispatch_log_witness :
  log (snd (dispatch_command cfg_defaults always_slow find_daemon
              (JArray [JString "find"; JString "/tmp"]) CMD_DAEMON))
  = log find_daemon
    ++ [LogDbg ("dispatch_command: " +:+ name cmd_find +:+ newline);
        if always_slow (mk_perf (snprintf 128 ("dispatch_command:" +:+ name cmd_find))
                                (Some (cfg_defaults "slow_command_log_threshold_seconds"
                                                    1%float)) [])
        then PerfLog (mk_perf
                        (description
                           (mk_perf (snprintf 128 ("dispatch_command:" +:+ name cmd_find))
                                    (Some (cfg_defaults "slow_command_log_threshold_seconds"
                                                        1%float)) []))
                        (wall_time_thresh
                           (mk_perf (snprintf 128 ("dispatch_command:" +:+ name cmd_find))
                                    (Some (cfg_defaults "slow_command_log_threshold_seconds"
                                                        1%float)) []))
                        (meta_data
                           (mk_perf (snprintf 128 ("dispatch_command:" +:+ name cmd_find))
                                    (Some (cfg_defaults "slow_command_log_threshold_seconds"
                                                        1%float)) [])
                         ++ [("args", JArray [JString "find"; JString "/tmp"])]))
        else LogDbg ("dispatch_command: " +:+ name cmd_find +:+ " (completed)" +:+ newline)].
Proof.
  apply (dispatch_log cfg_defaults always_slow find_daemon
           (JArray [JString "find"; JString "/tmp"]) CMD_DAEMON cmd_find
           (mk_perf (snprintf 128 ("dispatch_command:" +:+ name cmd_find))
                    (Some (cfg_defaults "slow_command_log_threshold_seconds" 1%float)) [])).
  - exact find_daemon_accepts.
  - reflexivity.
Defined.

(** The sample of a slow "find" is logged with the arguments. *)
Example slow_find_logs_sample_with_args :
  log (snd (dispatch_command cfg_defaults always_slow find_daemon
              (JArray [JString "find"; JString "/tmp"]) CMD_DAEMON))
  = [LogDbg ("dispatch_command: find" +:+ newline);
     PerfLog (mk_perf "dispatch_command:find" (Some 1%float)
                      [("args", JArray [JString "find"; JString "/tmp"])])].
Proof. vm_compute. reflexivity. Qed.

(** ** More on preprocessing *)

(** X17. For a registered command, preprocessing is decided by the validator
    of its definition alone: without a validator, or when the validator makes no
    message, it returns; when the validator makes a message it writes the
    envelope with that message and exits with code 1.  The flags of the
    definition, the poison state and the client play no part. *)
Theorem preprocess_registered (PACKAGE_VERSION : string) (st : state) (args : json_t)
    (output_pdu : w_pdu_type) (nm : string) (d : watchman_command_handler_def) :
  command_name args = Some nm →
  w_ht_get (command_funcs st) nm = Some d →
  preprocess_command PACKAGE_VERSION st args output_pdu =
  match cli_validate d with
  | Some validate =>
      match validate args with
      | Some m =>
          Exited 1 output_pdu
                 (JObject [("error", JString m); ("version", JString PACKAGE_VERSION);
                           ("cli_validated", JTrue)])
      | None => Returned
      end
  | None => Returned
  end.
Proof.
  intros Hnm Hget. unfold preprocess_command.
  rewrite (lookup_named _ _ _ _ nm), Hget by done. simpl.
  destruct (cli_validate d) as [validate|]; [|done].
  by destruct (validate args).
Qed.

Lemma preprocess_registered_witness :
  preprocess_command "4.9.0" poisoned_daemon (JArray [JString "shutdown-server"]) is_json_pretty
  = match cli_validate cmd_shutdown_server with
    | Some validate =>
        match validate (JArray [JString "shutdown-server"]) with
        | Some m =>
            Exited 1 is_json_pretty
                   (JObject [("error", JString m); ("version", JString "4.9.0");
                             ("cli_validated", JTrue)])
        | None => Returned
        end
    | None => Returned
    end.
Proof.
  apply (preprocess_registered "4.9.0" poisoned_daemon (JArray [JString "shutdown-server"])
           is_json_pretty "shutdown-server" cmd_shutdown_server); reflexivity.
Defined.
